(** * libfork: the lazy pool's counter protocol and the worker thread-locals

    A shallow embedding of
    - [include/libfork/schedule/lazy_pool.hpp]: the packed dual counter, the
      [thief_round_trip] protocol, the worker main loop [lazy_context::work],
      [lazy_context::submit], and the [lazy_pool] facade;
    - [include/libfork/core/ext/tls.hpp]: [worker_init] and [finalize].

    Machine words are modelled as [Z] with the wrap-around written out. The
    worker loop is modelled as a transition system with one program point per
    atomic operation of the source, so that interleavings of several workers
    on the shared counter are explicit. *)

From Stdlib Require Import ZArith QArith Lia String.
From stdpp Require Import base tactics option list list_numbers.

(* ===================================================================== *)
(** * Part I: the model                                                   *)
(* ===================================================================== *)

(* ===================================================================== *)
(** ** The packed dual counter (lazy_pool.hpp, lines 43-47)               *)
(* ===================================================================== *)

Module Lanes.
Local Open Scope Z_scope.

(** Arithmetic on [std::uint64_t] is arithmetic modulo [2^64]. *)
Definition wrap64 (x : Z) : Z := x mod 2 ^ 64.

Definition is_uint64 (x : Z) : Prop := 0 <= x < 2 ^ 64.

(** [static constexpr std::uint64_t k_thieve = 1;] *)
Definition k_thieve : Z := 1.

(** [static constexpr std::uint64_t k_active = k_thieve << 32U;] *)
Definition k_active : Z := wrap64 (Z.shiftl k_thieve 32).

(** [static constexpr std::uint64_t k_thieve_mask = (k_active - 1);] *)
Definition k_thieve_mask : Z := wrap64 (k_active - 1).

(** [static constexpr std::uint64_t k_active_mask = ~k_thieve_mask;] *)
Definition k_active_mask : Z := wrap64 (Z.lnot k_thieve_mask).

(** [std::atomic_uint64_t::fetch_add(d)]: the value read, and the value
    stored by the same indivisible read-modify-write. *)
Definition fetch_add (w d : Z) : Z * Z := (w, wrap64 (w + d)).

(** [std::atomic_uint64_t::fetch_sub(d)]. *)
Definition fetch_sub (w d : Z) : Z * Z := (w, wrap64 (w - d)).

(** The thief lane as the source reads it: [w & k_thieve_mask]. *)
Definition thieves (w : Z) : Z := Z.land w k_thieve_mask.

(** The active lane as the source reads it, [w & k_active_mask] (the source
    only tests it against zero), and its value as a count. *)
Definition actives_bits (w : Z) : Z := Z.land w k_active_mask.
Definition actives (w : Z) : Z := Z.shiftr (actives_bits w) 32.

(** The word that holds [a] in the active lane and [t] in the thief lane. *)
Definition pack (a t : Z) : Z := a * 2 ^ 32 + t.

(** The constant of the promotion and demotion in [thief_round_trip],
    [k_active - k_thieve], and the words the two operations store. *)
Definition k_promote : Z := wrap64 (k_active - k_thieve).
Definition promoted (w : Z) : Z := snd (fetch_add w k_promote).
Definition demoted (w : Z) : Z := snd (fetch_sub w k_promote).

End Lanes.

(* ===================================================================== *)
(** ** Thread-local fibre and context (core/ext/tls.hpp)                  *)
(* ===================================================================== *)

Module Tls.

(** What can be thrown: the [std::runtime_error]s of this file, and whatever
    a constructor of a collaborator throws (opaque, identified by a tag). *)
Inductive exn : Type :=
| runtime_error (what : string)
| ctor_failure (tag : nat).

Inductive outcome (A : Type) : Type :=
| Returns (a : A)
| Throws (e : exn).
Arguments Returns {A} a.
Arguments Throws {A} e.

(** Calls on the two [manual_lifetime] storages, in program order. *)
Inductive lifetime_call : Type :=
| context_construct (notify : nat)
| context_destroy
| fibre_construct
| fibre_destroy.

(** The thread-local variables of [impl::tls] (lines 31-35):
    [has_fibre], [thread_fibre], [has_context], [thread_context]. A
    [manual_lifetime<T>] is raw storage in which an object is alive or not;
    the [full_context] that is alive remembers the [notify] it was built
    from. [thread_context_data] is the address [thread_context.data()] of
    the context storage, and [calls] records every construct and destroy
    that was executed. *)
Record tls : Type := mk_tls {
  has_fibre : bool;
  thread_fibre : bool;
  has_context : bool;
  thread_context : option nat;
  thread_context_data : Z;
  calls : list lifetime_call
}.

(** [constinit inline thread_local ... = false / {}] on a thread whose
    context storage lives at address [addr]. *)
Definition fresh (addr : Z) : tls :=
  mk_tls false false false None addr [].

(** Code that reads and writes the thread-locals and may throw. *)
Definition M (A : Type) : Type := tls -> outcome A * tls.

Definition ret {A} (a : A) : M A := fun st => (Returns a, st).

Definition bind {A B} (m : M A) (k : A -> M B) : M B :=
  fun st =>
    match m st with
    | (Returns a, st') => k a st'
    | (Throws e, st') => (Throws e, st')
    end.

#[export] Instance M_ret : MRet M := @ret.
#[export] Instance M_bind : MBind M := fun A B k m => bind m k.

Definition read {A} (f : tls -> A) : M A := fun st => (Returns (f st), st).

(** Modelled from the spec: [LF_THROW] of core/macro.hpp, which is not among
    the sources. The spec reports misuse as a recoverable failure at the
    call site: the exception is thrown to the caller. *)
Definition LF_THROW {A} (e : exn) : M A := fun st => (Throws e, st).

(** Modelled from the spec: [LF_TRY { body } LF_CATCH_ALL { handler }] of
    core/macro.hpp, which is not among the sources; the spec speaks of a
    constructor that fails and of an error that is rethrown, so the pair is
    [try { body } catch (...) { handler }]. When the handler completes
    without throwing, control continues after the whole statement. *)
Definition LF_TRY_CATCH_ALL (body : M unit) (handler : M unit) : M unit :=
  fun st =>
    match body st with
    | (Returns tt, st') => (Returns tt, st')
    | (Throws _, st') => handler st'
    end.

Definition log (c : lifetime_call) (st : tls) : list lifetime_call :=
  calls st ++ [c].

(** Modelled from the spec: [manual_lifetime<full_context>::construct] of
    core/impl/manual_lifetime.hpp, which is not among the sources. The
    context is constructed in the thread's storage and a pointer to it is
    returned; the constructor of [full_context] either completes or throws
    ([failure]). *)
Definition thread_context_construct (notify : nat) (failure : option exn) : M Z :=
  fun st =>
    match failure with
    | Some e => (Throws e, st)
    | None =>
        (Returns (thread_context_data st),
         mk_tls (has_fibre st) (thread_fibre st) (has_context st) (Some notify)
                (thread_context_data st) (log (context_construct notify) st))
    end.

(** Modelled from the spec: [manual_lifetime<fibre>::construct], as above;
    the constructor of the fibre either completes or throws. *)
Definition thread_fibre_construct (failure : option exn) : M unit :=
  fun st =>
    match failure with
    | Some e => (Throws e, st)
    | None =>
        (Returns tt,
         mk_tls (has_fibre st) true (has_context st) (thread_context st)
                (thread_context_data st) (log fibre_construct st))
    end.

(** Modelled from the spec: [manual_lifetime<full_context>::destroy], as
    above: the context in the thread's storage is destroyed. *)
Definition thread_context_destroy : M unit :=
  fun st =>
    (Returns tt,
     mk_tls (has_fibre st) (thread_fibre st) (has_context st) None
            (thread_context_data st) (log context_destroy st)).

(** Modelled from the spec: [manual_lifetime<fibre>::destroy], as above. *)
Definition thread_fibre_destroy : M unit :=
  fun st =>
    (Returns tt,
     mk_tls (has_fibre st) false (has_context st) (thread_context st)
            (thread_context_data st) (log fibre_destroy st)).

Definition set_has_fibre (b : bool) : M unit :=
  fun st =>
    (Returns tt,
     mk_tls b (thread_fibre st) (has_context st) (thread_context st)
            (thread_context_data st) (calls st)).

Definition set_has_context (b : bool) : M unit :=
  fun st =>
    (Returns tt,
     mk_tls (has_fibre st) (thread_fibre st) b (thread_context st)
            (thread_context_data st) (calls st)).

(** [worker_init(notify)] (tls.hpp, lines 61-85). [context_fails] and
    [fibre_fails] say whether the two constructors throw. *)
Definition worker_init (notify : nat) (context_fails fibre_fails : option exn) : M Z :=
  hc ← read has_context;
  hf ← read has_fibre;
  if hc && hf then
    LF_THROW (runtime_error "Worker already initialized")
  else
    context ← thread_context_construct notify context_fails;
    LF_TRY_CATCH_ALL
      (thread_fibre_construct fibre_fails)
      thread_context_destroy;;
    set_has_fibre true;;
    set_has_context true;;
    mret context.

(** [finalize(worker)] (tls.hpp, lines 97-114). *)
Definition finalize (worker : Z) : M unit :=
  data ← read thread_context_data;
  if negb (Z.eqb worker data) then
    LF_THROW (runtime_error "Finalize called on wrong thread")
  else
    hc ← read has_context;
    hf ← read has_fibre;
    if negb hc || negb hf then
      LF_THROW (runtime_error "Finalize called before initialization or after finalization")
    else
      thread_context_destroy;;
      thread_fibre_destroy;;
      set_has_fibre false;;
      set_has_context false.

End Tls.

(* ===================================================================== *)
(** ** The worker: [lazy_context] (lazy_pool.hpp, lines 52-247)           *)
(* ===================================================================== *)

Module Worker.
Import Lanes.
Local Open Scope Z_scope.

(** A handle given to [thief_round_trip]: a single task ([task_h]) or an
    intrusive chain of submitted handles ([intruded_h]). Tasks are opaque
    and named by a number. *)
Inductive handle : Type :=
| task_h (task : nat)
| intruded_h (chain : list nat).

(** The resumptions [thief_round_trip] performs for a handle (lines 88-94):
    [for_each] over the chain, in chain order, or [resume] of the single
    handle. *)
Definition resumptions (h : handle) : list nat :=
  match h with
  | task_h t => [t]
  | intruded_h chain => chain
  end.

(** The token returned by [notifier.prepare_wait()]. *)
Definition key : Type := nat.

(** [remote_atomics] (lines 99-101): the dual counter and the stop flag.
    The state of the notifier belongs to [event_count], which is not among
    the sources; calls on it appear as actions, and what it answers is part
    of [replies] below. *)
Record remote_atomics : Type := mk_atomics {
  dual_count : Z;
  stop : bool
}.

(** One indivisible operation of a worker or a producer on the shared state
    or on a collaborator (notifier, submission queue, deques, tasks). *)
Inductive action : Type :=
| a_fetch_add (d prev : Z)
| a_fetch_sub (d prev : Z)
| a_notify_one
| a_notify_all
| a_resume (tasks : list nat)
| a_try_get_submitted (found : option handle)
| a_try_steal (found : option handle)
| a_prepare_wait (k : key)
| a_cancel_wait
| a_stop_test (set : bool)
| a_wait (k : key)
| a_wait_returns
| a_submit_to_queue (context : nat) (node : handle).

(** What the collaborators, none of which is among the sources, answer when
    the worker asks at this step: the own submission queue
    ([try_get_submitted]), the peers' deques ([try_steal]), and the notifier
    (the key of [prepare_wait], and whether a pending [wait] returns now,
    after a notification or spuriously). *)
Record replies : Type := mk_replies {
  re_try_get_submitted : option handle;
  re_try_steal : option handle;
  re_prepare_wait : key;
  re_wait_returns : bool
}.

(** Program points inside [thief_round_trip] (lines 79-97), one before each
    operation. *)
Inductive rt_pc : Type :=
| rt_promote   (* dual_count.fetch_add(k_active - k_thieve, acq_rel) *)
| rt_notify    (* notifier.notify_one() *)
| rt_execute   (* for_each(handle, resume) / resume(handle) *)
| rt_demote.   (* dual_count.fetch_sub(k_active - k_thieve, acq_rel) *)

(** One step of [thief_round_trip(handle)]; the next program point is
    [None] when the function returns. *)
Definition thief_round_trip (h : handle) (q : rt_pc) (r : remote_atomics)
  : action * option rt_pc * remote_atomics :=
  match q with
  | rt_promote =>
      let '(prev, new) := fetch_add (dual_count r) (wrap64 (k_active - k_thieve)) in
      let prev_thieves := Z.land prev k_thieve_mask in
      (a_fetch_add (wrap64 (k_active - k_thieve)) prev,
       Some (if prev_thieves =? 1 then rt_notify else rt_execute),
       mk_atomics new (stop r))
  | rt_notify => (a_notify_one, Some rt_execute, r)
  | rt_execute => (a_resume (resumptions h), Some rt_demote, r)
  | rt_demote =>
      let '(prev, new) := fetch_sub (dual_count r) (wrap64 (k_active - k_thieve)) in
      (a_fetch_sub (wrap64 (k_active - k_thieve)) prev, None,
       mk_atomics new (stop r))
  end.

(** Program points of the main loop of [lazy_context::work] (lines 155-243),
    one before each operation; the source's labels keep their names. The
    initialisation before [wake_up] (lines 124-134) and the [worker_finalize]
    deferred to the return touch thread-local state only. *)
Inductive pc : Type :=
| wake_up                          (* dual_count.fetch_add(k_thieve, release) *)
| continue_as_thief                (* try_get_submitted(), line 165 *)
| fast_steal                       (* try_steal(), line 169 *)
| in_round_trip (h : handle) (q : rt_pc)
| prepare                          (* key = notifier.prepare_wait() *)
| recheck (k : key)                (* try_get_submitted(), line 191 *)
| cancel_then_run (h : handle)     (* notifier.cancel_wait(), line 193 *)
| check_stop (k : key)             (* stop.test(acquire) *)
| cancel_then_return               (* notifier.cancel_wait(), line 203 *)
| park (k : key)                   (* dual_count.fetch_sub(k_thieve, acq_rel) *)
| before_wait (k : key)            (* about to call notifier.wait(key) *)
| in_wait (k : key)                (* blocked inside notifier.wait(key) *)
| returned.                        (* after [return;] on line 206 *)

(** One step of the worker's main loop. [None]: the worker takes no step,
    because it has returned or because it is blocked in [wait] and the
    notifier does not let it go. *)
Definition work (re : replies) (p : pc) (r : remote_atomics)
  : option (action * pc * remote_atomics) :=
  match p with
  | wake_up =>
      let '(prev, new) := fetch_add (dual_count r) k_thieve in
      Some (a_fetch_add k_thieve prev, continue_as_thief, mk_atomics new (stop r))
  | continue_as_thief =>
      match re_try_get_submitted re with
      | Some submission =>
          Some (a_try_get_submitted (Some submission),
                in_round_trip submission rt_promote, r)
      | None => Some (a_try_get_submitted None, fast_steal, r)
      end
  | fast_steal =>
      match re_try_steal re with
      | Some stolen =>
          Some (a_try_steal (Some stolen), in_round_trip stolen rt_promote, r)
      | None => Some (a_try_steal None, prepare, r)
      end
  | in_round_trip h q =>
      let '(a, next, r') := thief_round_trip h q r in
      Some (a,
            match next with
            | Some q' => in_round_trip h q'
            | None => continue_as_thief
            end,
            r')
  | prepare =>
      Some (a_prepare_wait (re_prepare_wait re), recheck (re_prepare_wait re), r)
  | recheck k =>
      match re_try_get_submitted re with
      | Some submission =>
          Some (a_try_get_submitted (Some submission), cancel_then_run submission, r)
      | None => Some (a_try_get_submitted None, check_stop k, r)
      end
  | cancel_then_run h => Some (a_cancel_wait, in_round_trip h rt_promote, r)
  | check_stop k =>
      if stop r then Some (a_stop_test true, cancel_then_return, r)
      else Some (a_stop_test false, park k, r)
  | cancel_then_return => Some (a_cancel_wait, returned, r)
  | park k =>
      let '(prev_dual, new) := fetch_sub (dual_count r) k_thieve in
      let prev_thieves := Z.land prev_dual k_thieve_mask in
      let prev_actives := Z.land prev_dual k_active_mask in
      Some (a_fetch_sub k_thieve prev_dual,
            (if (prev_thieves =? 1) && negb (prev_actives =? 0)
             then wake_up else before_wait k),
            mk_atomics new (stop r))
  | before_wait k => Some (a_wait k, in_wait k, r)
  | in_wait k =>
      if re_wait_returns re then Some (a_wait_returns, wake_up, r) else None
  | returned => None
  end.

(** The worker's own run against an arbitrary environment: before each of
    its steps the peers have left the shared atomics in some state, and the
    collaborators give some answers. The result is the sequence of the
    worker's actions and the program point it reaches. *)
Fixpoint run (env : list (replies * remote_atomics)) (p : pc) : list action * pc :=
  match env with
  | [] => ([], p)
  | (re, r) :: env' =>
      match work re p r with
      | None => ([], p)
      | Some (a, p', _) =>
          let '(acts, q) := run env' p' in (a :: acts, q)
      end
  end.

(** The actions that write the dual counter. *)
Definition writes_counter (a : action) : bool :=
  match a with
  | a_fetch_add _ _ | a_fetch_sub _ _ => true
  | _ => false
  end.

(** What is left to do for a worker on the stop path (lines 198-207). *)
Definition exit_actions (p : pc) : option (list action) :=
  match p with
  | check_stop _ => Some [a_stop_test true; a_cancel_wait]
  | cancel_then_return => Some [a_cancel_wait]
  | returned => Some []
  | _ => None
  end.

(** [lazy_context::submit(node)] (lines 109-112) on the context with the
    given index: [numa_worker_context::submit(node)] enqueues into this
    context's submission queue, then [m_atomics->notifier.notify_all()]. *)
Definition submit (context : nat) (node : handle) : list action :=
  [a_submit_to_queue context node; a_notify_all].

End Worker.

(* ===================================================================== *)
(** ** The pool: workers sharing one [remote_atomics], and the facade     *)
(* ===================================================================== *)

Module Pool.
Import Lanes Worker.
Local Open Scope Z_scope.

(** The shared coordination state together with the program point of each
    of the worker threads running [lazy_context::work]. *)
Record pool : Type := mk_pool {
  m_atomics : remote_atomics;
  m_workers : list pc
}.

(** After construction: [dual_count = 0] (line 99), [stop] clear, every
    worker thread at the top of its main loop. *)
Definition start (n : nat) : pool :=
  mk_pool (mk_atomics 0 false) (replicate n wake_up).

(** What can happen next: worker [i] performs its next operation (with the
    collaborators' answers [re]), or [clean_up] sets the stop flag
    ([stop.test_and_set(release)], line 276). *)
Inductive move : Type :=
| worker_moves (i : nat) (re : replies)
| request_stop.

Inductive event : Type :=
| worker_does (i : nat) (a : action)
| stop_set.

Definition step (s : pool) (m : move) : option (event * pool) :=
  match m with
  | worker_moves i re =>
      match m_workers s !! i with
      | None => None
      | Some p =>
          match work re p (m_atomics s) with
          | None => None
          | Some (a, p', r') =>
              Some (worker_does i a, mk_pool r' (<[i:=p']> (m_workers s)))
          end
      end
  | request_stop =>
      Some (stop_set,
            mk_pool (mk_atomics (dual_count (m_atomics s)) true) (m_workers s))
  end.

(** A sequence of moves, each indivisible, in the order given. *)
Fixpoint exec (ms : list move) (s : pool) : option (list event * pool) :=
  match ms with
  | [] => Some ([], s)
  | m :: ms' =>
      match step s m with
      | None => None
      | Some (e, s') =>
          match exec ms' s' with
          | None => None
          | Some (es, s'') => Some (e :: es, s'')
          end
      end
  end.

Inductive reachable (n : nat) : pool -> Prop :=
| reachable_start : reachable n (start n)
| reachable_step s m e s' :
    reachable n s -> step s m = Some (e, s') -> reachable n s'.

(** The actions of worker [i] among the events of an execution. *)
Definition actions_of (i : nat) (es : list event) : list action :=
  omap (fun e => match e with
                 | worker_does j a => if Nat.eqb i j then Some a else None
                 | stop_set => None
                 end) es.

(** Where a worker stands with respect to the counter. Inside
    [thief_round_trip], between promotion and demotion, it is registered in
    the active lane. Before its entry increment, and from its park decrement
    until [wait] has returned, it is registered in neither lane. Everywhere
    else it is registered in the thief lane; this includes the worker that
    returned on the stop path, which was never decremented. *)
Definition is_active (p : pc) : bool :=
  match p with
  | in_round_trip _ rt_notify | in_round_trip _ rt_execute
  | in_round_trip _ rt_demote => true
  | _ => false
  end.

Definition is_unregistered (p : pc) : bool :=
  match p with
  | wake_up | before_wait _ | in_wait _ => true
  | _ => false
  end.

Definition is_thief (p : pc) : bool := negb (is_active p) && negb (is_unregistered p).

Definition is_parked (p : pc) : bool :=
  match p with
  | in_wait _ => true
  | _ => false
  end.

Definition bz (b : bool) : Z := if b then 1 else 0.

Definition count (f : pc -> bool) (ws : list pc) : nat :=
  sum_list_with (fun p => if f p then 1%nat else 0%nat) ws.

(** The lanes of the pool's counter, and the sleepers as the spec defines
    them ([S = N - T - A]). *)
Definition T_of (s : pool) : Z := thieves (dual_count (m_atomics s)).
Definition A_of (s : pool) : Z := actives (dual_count (m_atomics s)).
Definition S_of (n : nat) (s : pool) : Z := Z.of_nat n - T_of s - A_of s.

(** The workers blocked inside [notifier.wait]. *)
Definition parked (s : pool) : Z := Z.of_nat (count is_parked (m_workers s)).

(** Invariant I1 on a pool state (lines 136-147). *)
Definition I1 (n : nat) (s : pool) : Prop :=
  A_of s > 0 -> T_of s >= 1 \/ S_of n s = 0.

(** The counter holds, lane by lane, the number of workers at program
    points of the active class and of the thief class. *)
Definition registered (n : nat) (s : pool) : Prop :=
  length (m_workers s) = n /\
  dual_count (m_atomics s)
  = pack (Z.of_nat (count is_active (m_workers s)))
         (Z.of_nat (count is_thief (m_workers s))).

(** *** The facade [lazy_pool] (lines 258-319) *)

(** [std::uniform_int_distribution<std::size_t>{a, b}]: each integer of the
    closed interval from [a] to [b] is drawn with the same probability,
    [1 / (b - a + 1)]. *)
Record uniform_int_distribution : Type := mk_dist {
  dist_a : Z;
  dist_b : Z
}.

Definition in_support (d : uniform_int_distribution) (x : Z) : Prop :=
  dist_a d <= x <= dist_b d.

Definition probability (d : uniform_int_distribution) (x : Z) : Q :=
  if (dist_a d <=? x) && (x <=? dist_b d)
  then Qmake 1 (Z.to_pos (dist_b d - dist_a d + 1))
  else Qmake 0 1.

(** The members the claims are about; a context is named by the index at
    which the constructor created it. *)
Record lazy_pool : Type := mk_lazy_pool {
  m_dist : uniform_int_distribution;
  m_contexts : list nat
}.

(** The constructor's loop (lines 297-300)
    [for (i = 0; i < n; ++i) m_contexts.push_back(...)]:
    [todo] iterations remain, the next index is [i]. *)
Fixpoint push_contexts (todo : nat) (i : nat) (contexts : list nat) : list nat :=
  match todo with
  | O => contexts
  | S todo' => push_contexts todo' (S i) (contexts ++ [i])
  end.

(** [explicit lazy_pool(std::size_t n) : m_dist{0, n - 1}] (line 295), with
    [n - 1] computed on [std::size_t] (64 bits). *)
Definition lazy_pool_new (n : Z) : lazy_pool :=
  mk_lazy_pool (mk_dist 0 (wrap64 (n - 1))) (push_contexts (Z.to_nat n) 0 []).

(** [schedule(node)] (line 288): [m_contexts[m_dist(m_rng)]->submit(node)],
    where [drawn] is the value of [m_dist(m_rng)]. [None]: the vector is
    indexed out of range (undefined behaviour in the source). *)
Definition schedule (pl : lazy_pool) (drawn : Z) (node : handle)
  : option (list action) :=
  match m_contexts pl !! Z.to_nat drawn with
  | Some context => Some (submit context node)
  | None => None
  end.

End Pool.

(* ===================================================================== *)
(** ** Example executions                                                 *)
(* ===================================================================== *)

Module Executions.
Import Lanes Worker Pool.
Local Open Scope Z_scope.

(** No work anywhere and no wake-up. *)
Definition quiet : replies := mk_replies None None 0%nat false.

(** A batch has been submitted to the worker that asks. *)
Definition one_submission : replies :=
  mk_replies (Some (intruded_h [7%nat])) None 0%nat false.

(** Pool of two. Both workers enter; worker 1 finds nothing, prepares to
    wait, sees no stop request and performs the park decrement. *)
Definition worker1_parks : list move :=
  [worker_moves 0 quiet; worker_moves 1 quiet; worker_moves 1 quiet;
   worker_moves 1 quiet; worker_moves 1 quiet; worker_moves 1 quiet;
   worker_moves 1 quiet; worker_moves 1 quiet].

Definition worker1_decremented : pool :=
  mk_pool (mk_atomics (pack 0 1) false) [continue_as_thief; before_wait 0%nat].

(** Worker 1 then blocks in [wait]; a batch is submitted to worker 0, which
    takes it from its queue and performs the promotion. *)
Definition worker0_takes_batch : list move :=
  [worker_moves 1 quiet; worker_moves 0 one_submission].

Definition before_promotion : pool :=
  mk_pool (mk_atomics (pack 0 1) false)
          [in_round_trip (intruded_h [7%nat]) rt_promote; in_wait 0%nat].

Definition after_promotion : pool :=
  mk_pool (mk_atomics (pack 1 0) false)
          [in_round_trip (intruded_h [7%nat]) rt_notify; in_wait 0%nat].

(** Pool of two. Both workers enter; worker 0 takes a batch and is promoted
    (two thieves before, so no [notify_one]); worker 1 finds nothing,
    prepares to wait, sees no stop request and performs the park
    decrement. *)
Definition worker1_parks_beside_active : list move :=
  [worker_moves 0 quiet; worker_moves 1 quiet; worker_moves 0 one_submission;
   worker_moves 0 quiet; worker_moves 1 quiet; worker_moves 1 quiet;
   worker_moves 1 quiet; worker_moves 1 quiet; worker_moves 1 quiet].

Definition before_park : pool :=
  mk_pool (mk_atomics (pack 1 1) false)
          [in_round_trip (intruded_h [7%nat]) rt_execute; park 0%nat].

Definition after_park : pool :=
  mk_pool (mk_atomics (pack 1 0) false)
          [in_round_trip (intruded_h [7%nat]) rt_execute; wake_up].

(** Worker 1 has re-entered as a thief after the aborted sleep. *)
Definition after_reentry : pool :=
  mk_pool (mk_atomics (pack 1 1) false)
          [in_round_trip (intruded_h [7%nat]) rt_execute; continue_as_thief].

(** Pool of one. The worker finds nothing and prepares to wait; a stop is
    requested; the worker reads the flag and returns. *)
Definition lone_worker_prepares : list move :=
  [worker_moves 0 quiet; worker_moves 0 quiet; worker_moves 0 quiet;
   worker_moves 0 quiet; worker_moves 0 quiet; request_stop].

Definition stop_requested : pool :=
  mk_pool (mk_atomics (pack 0 1) true) [check_stop 0%nat].

Definition lone_worker_stops : list move :=
  [worker_moves 0 quiet; worker_moves 0 quiet].

Definition lone_worker_returned : pool :=
  mk_pool (mk_atomics (pack 0 1) true) [returned].

End Executions.

(* ===================================================================== *)
(** ** The thread-locals as their users see them (core/ext/tls.hpp)       *)
(* ===================================================================== *)

Module TlsApi.
Import Tls.
Local Open Scope Z_scope.

(** Modelled from the spec: [LF_ASSERT] of core/macro.hpp is not among the
    sources; the guards are what enforces that the thread has a context and
    a fibre, so a call whose assertion does not hold has no result
    ([None]). [impl::tls::context()] (lines 42-45). *)
Definition context (st : tls) : option Z :=
  if has_context st then Some (thread_context_data st) else None.

(** [impl::tls::fibre()] (lines 37-40), with [LF_ASSERT] as above;
    [thread_fibre_data] is the address [thread_fibre.data()] of the fibre
    storage. *)
Definition fibre (thread_fibre_data : Z) (st : tls) : option Z :=
  if has_fibre st then Some thread_fibre_data else None.

(** A call of one of the two functions of [ext], with what the constructors
    do during it. *)
Inductive api_call : Type :=
| call_worker_init (notify : nat) (context_fails fibre_fails : option exn)
| call_finalize (worker : Z).

(** The thread-locals after a call; the caller catches what is thrown. *)
Definition do_call (st : tls) (c : api_call) : tls :=
  match c with
  | call_worker_init notify cf ff => snd (worker_init notify cf ff st)
  | call_finalize worker => snd (finalize worker st)
  end.

Definition do_calls (cs : list api_call) (st : tls) : tls :=
  foldl do_call st cs.

Definition fibre_constructor_succeeds (c : api_call) : Prop :=
  match c with
  | call_worker_init _ _ ff => ff = None
  | call_finalize _ => True
  end.

(** Replaying a record of construct and destroy calls on the two storages:
    [(c, f)] says whether a context and a fibre are alive. A construct on
    a storage that holds a live object, or a destroy on one that holds
    none, cannot be replayed. *)
Definition replay_call (alive : bool * bool) (c : lifetime_call)
  : option (bool * bool) :=
  match c, alive with
  | context_construct _, (false, f) => Some (true, f)
  | context_destroy, (true, f) => Some (false, f)
  | fibre_construct, (c, false) => Some (c, true)
  | fibre_destroy, (c, true) => Some (c, false)
  | _, _ => None
  end.

Fixpoint replay (alive : bool * bool) (log : list lifetime_call)
  : option (bool * bool) :=
  match log with
  | [] => Some alive
  | c :: log' =>
      match replay_call alive c with
      | Some alive' => replay alive' log'
      | None => None
      end
  end.

(** The guards say what is alive. *)
Definition guards_track_lifetimes (st : tls) : Prop :=
  has_context st = has_fibre st /\
  thread_fibre st = has_fibre st /\
  (match thread_context st with Some _ => true | None => false end)
  = has_context st.

(** What is carried from call to call: the guards say what is alive, and
    the record of constructs and destroys replays to that. *)
Definition sound (st : tls) : Prop :=
  guards_track_lifetimes st /\
  replay (false, false) (calls st) = Some (has_context st, has_fibre st).

End TlsApi.

(* ===================================================================== *)
(** ** Reading a worker's sequence of actions                             *)
(* ===================================================================== *)

Module WorkerTraces.
Import Lanes Worker.
Local Open Scope Z_scope.

(** The handle a worker has taken and not yet resumed, by program point. *)
Definition holds (p : pc) : list handle :=
  match p with
  | in_round_trip h rt_promote | in_round_trip h rt_notify
  | in_round_trip h rt_execute | cancel_then_run h => [h]
  | _ => []
  end.

(** The handles taken ([try_get_submitted] or [try_steal] found one), and
    the resumptions performed, in order. *)
Definition taken (acts : list action) : list handle :=
  omap (fun a => match a with
                 | a_try_get_submitted (Some h) | a_try_steal (Some h) => Some h
                 | _ => None
                 end) acts.

Definition resumed (acts : list action) : list (list nat) :=
  omap (fun a => match a with
                 | a_resume tasks => Some tasks
                 | _ => None
                 end) acts.

(** The event-count pattern of the notifier (lines 177-187), one action at
    a time: [prepare_wait] leaves its key pending; [cancel_wait] and
    [wait(key)] need a pending key, [wait] that very key, and use it up.
    [None]: the action breaks the pattern. *)
Definition notifier_step (pending : option key) (a : action)
  : option (option key) :=
  match a with
  | a_prepare_wait k => Some (Some k)
  | a_cancel_wait =>
      match pending with
      | Some _ => Some None
      | None => None
      end
  | a_wait k =>
      match pending with
      | Some k' => if Nat.eqb k k' then Some None else None
      | None => None
      end
  | _ => Some pending
  end.

Fixpoint notifier_protocol (pending : option key) (acts : list action) : bool :=
  match acts with
  | [] => true
  | a :: acts' =>
      match notifier_step pending a with
      | Some pending' => notifier_protocol pending' acts'
      | None => false
      end
  end.

(** The actions before the next [prepare_wait]. *)
Fixpoint until_prepare (acts : list action) : list action :=
  match acts with
  | [] => []
  | a_prepare_wait _ :: _ => []
  | a :: acts' => a :: until_prepare acts'
  end.

(** The actions that use up a prepared key. *)
Definition consumes_key (a : action) : bool :=
  match a with
  | a_cancel_wait | a_wait _ => true
  | _ => false
  end.

Definition is_wait (a : action) : bool :=
  match a with
  | a_wait _ => true
  | _ => false
  end.

(** What the worker meets at one of its steps during a shutdown in which
    no work is left: the queue and the deques are empty, the notifier lets
    a pending [wait] return, and the stop flag is set. *)
Definition calm (e : replies * remote_atomics) : Prop :=
  re_try_get_submitted (fst e) = None /\
  re_try_steal (fst e) = None /\
  re_wait_returns (fst e) = true /\
  stop (snd e) = true.

(** An upper bound on the number of steps from a program point to the
    return, in calm surroundings. *)
Definition steps_to_return (p : pc) : nat :=
  match p with
  | returned => 0
  | cancel_then_return => 1
  | check_stop _ => 2
  | recheck _ => 3
  | prepare => 4
  | fast_steal => 5
  | continue_as_thief => 6
  | wake_up => 7
  | in_round_trip _ rt_demote => 7
  | in_round_trip _ rt_execute => 8
  | in_round_trip _ rt_notify => 9
  | in_round_trip _ rt_promote => 10
  | in_wait _ => 8
  | before_wait _ => 9
  | park _ => 10
  | cancel_then_run _ => 11
  end.

(** The calls of [wait] a worker can still make once the stop flag is set:
    one if it has passed the test of the flag and not yet called [wait]. *)
Definition may_still_wait (p : pc) : nat :=
  match p with
  | park _ | before_wait _ => 1
  | _ => 0
  end.

(** The program points on the way out. *)
Definition is_leaving (p : pc) : bool :=
  match p with
  | cancel_then_return | returned => true
  | _ => false
  end.

(** What a program point requires of the pending key. *)
Definition key_at (p : pc) (pending : option key) : Prop :=
  match p with
  | recheck k | check_stop k | park k | before_wait k => pending = Some k
  | cancel_then_run _ | cancel_then_return => is_Some pending
  | _ => True
  end.

(** The program points at which the worker does not hold a key that it
    will still cancel or wait on. *)
Definition keyless (p : pc) : bool :=
  match p with
  | wake_up | continue_as_thief | fast_steal | in_round_trip _ _ | prepare
  | in_wait _ | returned => true
  | _ => false
  end.

(** What the worker meets at one of its steps while the pool has nothing to
    do: the queue and the deques are empty, no stop is requested, the
    notifier holds a waiting worker, and the counter does not show one
    thief beside an active worker. *)
Definition idle (e : replies * remote_atomics) : Prop :=
  re_try_get_submitted (fst e) = None /\
  re_try_steal (fst e) = None /\
  re_wait_returns (fst e) = false /\
  stop (snd e) = false /\
  is_uint64 (dual_count (snd e)) /\
  ~ (thieves (dual_count (snd e)) = 1 /\ actives (dual_count (snd e)) <> 0).

(** An upper bound on the number of steps from a program point to the
    blocking [wait], in idle surroundings. *)
Definition steps_to_wait (p : pc) : nat :=
  match p with
  | in_wait _ => 0
  | before_wait _ => 1
  | park _ => 2
  | check_stop _ => 3
  | recheck _ => 4
  | prepare => 5
  | fast_steal => 6
  | continue_as_thief => 7
  | wake_up => 8
  | in_round_trip _ rt_demote => 8
  | in_round_trip _ rt_execute => 9
  | in_round_trip _ rt_notify => 10
  | in_round_trip _ rt_promote => 11
  | cancel_then_run _ => 12
  | cancel_then_return | returned => 0
  end.

End WorkerTraces.

(* ===================================================================== *)
(** ** The worker threads of [lazy_pool] (lazy_pool.hpp, lines 272-318)   *)
(* ===================================================================== *)

Module Facade.
Import Tls.

(** What happens to the threads and the shared state, in program order. *)
Inductive thread_event : Type :=
| ev_spawn (node : nat)
| ev_stop_set
| ev_notify_all
| ev_join (thread : nat).

(** The stop flag of [m_atomics], the vector [m_workers] (a thread is named
    by the node it was started for), and the record of events. *)
Record threads : Type := mk_threads {
  stop_flag : bool;
  m_workers : list nat;
  events : list thread_event
}.

Definition no_threads : threads := mk_threads false [] [].

(** [clean_up()] (lines 272-282): [stop.test_and_set], [notify_all], then
    [join] of every element of [m_workers]. *)
Definition clean_up (st : threads) : threads :=
  mk_threads true (m_workers st)
             (events st ++ [ev_stop_set; ev_notify_all]
                        ++ map ev_join (m_workers st)).

(** The loop [for (auto &&node : nodes) m_workers.emplace_back(work, node)]
    (lines 307-309). [fails i] says whether starting the thread at position
    [i] of the vector throws; a failed [emplace_back] leaves the vector as
    it was. *)
Fixpoint spawn (nodes : list nat) (fails : nat -> option exn) (st : threads)
  : outcome unit * threads :=
  match nodes with
  | [] => (Returns tt, st)
  | node :: nodes' =>
      match fails (length (m_workers st)) with
      | Some e => (Throws e, st)
      | None =>
          spawn nodes' fails
                (mk_threads (stop_flag st) (m_workers st ++ [node])
                            (events st ++ [ev_spawn node]))
      end
  end.

(** The end of the constructor (lines 306-313):
    [LF_TRY { spawn } LF_CATCH_ALL { clean_up(); LF_RETHROW; }]. *)
Definition start_workers (nodes : list nat) (fails : nat -> option exn)
  : outcome unit * threads :=
  match spawn nodes fails no_threads with
  | (Returns tt, st) => (Returns tt, st)
  | (Throws e, st) => (Throws e, clean_up st)
  end.

(** [~lazy_pool() noexcept { clean_up(); }] (line 318). *)
Definition destroy (st : threads) : threads := clean_up st.

Definition spawned (es : list thread_event) : list nat :=
  omap (fun e => match e with ev_spawn n => Some n | _ => None end) es.

Definition joined (es : list thread_event) : list nat :=
  omap (fun e => match e with ev_join n => Some n | _ => None end) es.

End Facade.

(* ===================================================================== *)
(** * Part II: properties                                                *)
(* ===================================================================== *)

(** ** Lane arithmetic *)

Module LanesFacts.
Import Lanes.
Local Open Scope Z_scope.

Lemma k_active_val : k_active = 2 ^ 32.
Proof. reflexivity. Qed.

Lemma k_thieve_mask_val : k_thieve_mask = Z.ones 32.
Proof. reflexivity. Qed.

Lemma k_active_mask_val : k_active_mask = 2 ^ 64 - 2 ^ 32.
Proof. reflexivity. Qed.

Lemma k_promote_val : k_promote = 2 ^ 32 - 1.
Proof. reflexivity. Qed.

Lemma thieves_mod w : thieves w = w mod 2 ^ 32.
Proof.
  unfold thieves. rewrite k_thieve_mask_val.
  apply Z.land_ones. lia.
Qed.

Lemma actives_bits_shift w :
  is_uint64 w -> actives_bits w = Z.shiftl (Z.shiftr w 32) 32.
Proof.
  intros Hw. unfold actives_bits, k_active_mask, wrap64.
  rewrite <- (Z.land_ones (Z.lnot k_thieve_mask) 64) by lia.
  rewrite Z.land_assoc, (Z.land_comm w (Z.lnot _)), <- Z.land_assoc.
  rewrite (Z.land_ones w 64) by lia.
  rewrite (Z.mod_small w) by exact Hw.
  rewrite Z.land_comm, <- Z.ldiff_land.
  rewrite k_thieve_mask_val. apply Z.ldiff_ones_r. lia.
Qed.

Lemma actives_div w : is_uint64 w -> actives w = w / 2 ^ 32.
Proof.
  intros Hw. unfold actives. rewrite actives_bits_shift by exact Hw.
  rewrite Z.shiftr_shiftl_l by lia.
  replace (32 - 32) with 0 by lia. rewrite Z.shiftl_0_r.
  apply Z.shiftr_div_pow2. lia.
Qed.

Lemma actives_bits_zero w :
  is_uint64 w -> actives_bits w = 0 <-> actives w = 0.
Proof.
  intros Hw. rewrite actives_div by exact Hw.
  rewrite actives_bits_shift by exact Hw.
  rewrite Z.shiftl_mul_pow2, Z.shiftr_div_pow2 by lia. lia.
Qed.

Lemma lanes_of_pack a t :
  0 <= a < 2 ^ 32 -> 0 <= t < 2 ^ 32 ->
  is_uint64 (pack a t) /\ thieves (pack a t) = t /\ actives (pack a t) = a.
Proof.
  intros Ha Ht.
  assert (Hu : is_uint64 (pack a t)) by (unfold is_uint64, pack; lia).
  split; [exact Hu|]. rewrite thieves_mod, actives_div by exact Hu.
  unfold pack. split.
  - rewrite Z.add_comm, Z.mod_add by lia. apply Z.mod_small. lia.
  - rewrite Z.add_comm, Z.div_add by lia. rewrite Z.div_small by lia. lia.
Qed.

Lemma pack_of_lanes w : is_uint64 w -> w = pack (actives w) (thieves w).
Proof.
  intros Hw. rewrite thieves_mod, actives_div by exact Hw.
  unfold pack. pose proof (Z.div_mod w (2 ^ 32)). lia.
Qed.

Lemma lanes_bounds w :
  is_uint64 w -> 0 <= thieves w < 2 ^ 32 /\ 0 <= actives w < 2 ^ 32.
Proof.
  intros Hw. rewrite thieves_mod, actives_div by exact Hw.
  unfold is_uint64 in Hw. split.
  - apply Z.mod_pos_bound. lia.
  - split; [apply Z.div_pos; lia|].
    apply Z.div_lt_upper_bound; lia.
Qed.

Lemma wrap64_small x : is_uint64 x -> wrap64 x = x.
Proof. intros Hx. apply Z.mod_small. exact Hx. Qed.

Lemma wrap64_uint64 x : is_uint64 (wrap64 x).
Proof. unfold is_uint64, wrap64. apply Z.mod_pos_bound. lia. Qed.

(** Moving one unit between the lanes of a packed word, and adding or
    removing a thief, all without wrap-around when the lanes allow it. *)
Lemma promoted_pack a t :
  0 <= a < 2 ^ 32 - 1 -> 1 <= t < 2 ^ 32 ->
  promoted (pack a t) = pack (a + 1) (t - 1).
Proof.
  intros Ha Ht. unfold promoted, fetch_add. simpl snd.
  rewrite k_promote_val. rewrite wrap64_small; unfold pack, is_uint64; lia.
Qed.

Lemma demoted_pack a t :
  1 <= a < 2 ^ 32 -> 0 <= t < 2 ^ 32 - 1 ->
  demoted (pack a t) = pack (a - 1) (t + 1).
Proof.
  intros Ha Ht. unfold demoted, fetch_sub. simpl snd.
  rewrite k_promote_val. rewrite wrap64_small; unfold pack, is_uint64; lia.
Qed.

Lemma add_thief_pack a t :
  0 <= a < 2 ^ 32 -> 0 <= t < 2 ^ 32 - 1 ->
  wrap64 (pack a t + k_thieve) = pack a (t + 1).
Proof.
  intros Ha Ht. unfold k_thieve.
  rewrite wrap64_small; unfold pack, is_uint64; lia.
Qed.

Lemma sub_thief_pack a t :
  0 <= a < 2 ^ 32 -> 1 <= t < 2 ^ 32 ->
  wrap64 (pack a t - k_thieve) = pack a (t - 1).
Proof.
  intros Ha Ht. unfold k_thieve.
  rewrite wrap64_small; unfold pack, is_uint64; lia.
Qed.

(** The demotion on any word with an active worker (peers may have changed
    the word since the promotion). *)
Lemma demotion_moves_one_active_to_thief (w : Z) :
  is_uint64 w -> 1 <= actives w -> thieves w <= 2 ^ 32 - 2 ->
  thieves (demoted w) = thieves w + 1 /\ actives (demoted w) = actives w - 1.
Proof.
  intros Hw Ha Ht.
  destruct (lanes_bounds w Hw) as [HtB HaB].
  pose proof (pack_of_lanes w Hw) as Hpack.
  rewrite Hpack at 1 3. rewrite demoted_pack by lia.
  destruct (lanes_of_pack (actives w - 1) (thieves w + 1)) as (_ & HT & HA);
    [lia | lia | auto].
Qed.

End LanesFacts.

(** ** Thread-local initialisation and finalisation *)

Module TlsFacts.
Import Tls.
Local Open Scope Z_scope.

Ltac run_tls :=
  unfold worker_init, finalize, mbind, mret, M_bind, M_ret, bind, ret, read,
    LF_THROW, LF_TRY_CATCH_ALL, thread_context_construct,
    thread_fibre_construct, thread_context_destroy, thread_fibre_destroy,
    set_has_fibre, set_has_context, log;
  simpl.

Lemma worker_init_guards_set notify st :
  has_context st = true -> has_fibre st = true ->
  forall cf ff,
    worker_init notify cf ff st
    = (Throws (runtime_error "Worker already initialized"), st).
Proof.
  intros Hc Hf cf ff. run_tls. rewrite Hc, Hf. reflexivity.
Qed.

(** Whenever [worker_init] returns normally, both guards are set and the
    pointer returned is the address of the thread's context storage. *)
Lemma worker_init_returns notify cf ff st c st' :
  worker_init notify cf ff st = (Returns c, st') ->
  has_context st' = true /\ has_fibre st' = true /\
  c = thread_context_data st' /\ thread_context_data st' = thread_context_data st.
Proof.
  run_tls.
  destruct (has_context st && has_fibre st); [discriminate|].
  destruct cf as [e|]; [discriminate|].
  destruct ff as [e|]; simpl; intros [= <- <-]; simpl; auto.
Qed.

Lemma finalize_wrong_pointer worker st :
  worker <> thread_context_data st ->
  finalize worker st
  = (Throws (runtime_error "Finalize called on wrong thread"), st).
Proof.
  intros Hne. run_tls.
  destruct (Z.eqb_spec worker (thread_context_data st)); [contradiction|].
  reflexivity.
Qed.

Lemma finalize_guard_clear worker st :
  has_context st = false \/ has_fibre st = false ->
  exists what, finalize worker st = (Throws (runtime_error what), st).
Proof.
  intros Hg. run_tls.
  destruct (worker =? thread_context_data st); simpl; [|eauto].
  destruct Hg as [-> | ->]; simpl; [eauto|].
  rewrite orb_true_r. eauto.
Qed.

Lemma finalize_returns worker st st' :
  finalize worker st = (Returns tt, st') ->
  has_context st' = false /\ has_fibre st' = false /\
  worker = thread_context_data st /\
  has_context st = true /\ has_fibre st = true.
Proof.
  run_tls.
  destruct (Z.eqb_spec worker (thread_context_data st)); simpl; [|discriminate].
  destruct (has_context st), (has_fibre st); simpl; try discriminate.
  intros [= <-]. simpl. auto.
Qed.

(** C2 (the code at the failing input). On a fresh thread, when the fibre
    constructor throws [e], [worker_init] destroys the context, does not
    rethrow [e], sets both guards and returns the pointer to the destroyed
    context. *)
Theorem worker_init_swallows_fibre_failure (addr : Z) (notify : nat) (e : exn) :
  worker_init notify None (Some e) (fresh addr)
  = (Returns addr,
     mk_tls true false true None addr
            [context_construct notify; context_destroy]).
Proof. reflexivity. Qed.

(** After that call the guards claim a context and a fibre that do not
    exist: a later [finalize] passes both tests and destroys the context a
    second time and a fibre that was never constructed. *)
Lemma finalize_after_swallowed_failure (addr : Z) (notify : nat) (e : exn) :
  finalize addr (snd (worker_init notify None (Some e) (fresh addr)))
  = (Returns tt,
     mk_tls false false false None addr
            [context_construct notify; context_destroy;
             context_destroy; fibre_destroy]).
Proof. run_tls. rewrite Z.eqb_refl. reflexivity. Qed.

(** C3. Misuse detection. (a) [worker_init] on a thread whose two guards are
    set throws and leaves the thread-locals as they were (nothing is
    constructed); this is the case after any [worker_init] that returned.
    (b) [finalize] with a pointer other than the thread's context, or with
    a guard clear, throws and leaves the thread-locals as they were (nothing
    is destroyed); this is the case on a thread never initialised and after
    any [finalize] that returned. *)
Theorem misuse_is_reported :
  (forall notify cf ff st,
      has_context st = true -> has_fibre st = true ->
      worker_init notify cf ff st
      = (Throws (runtime_error "Worker already initialized"), st)) /\
  (forall notify cf ff st c st' notify' cf' ff',
      worker_init notify cf ff st = (Returns c, st') ->
      worker_init notify' cf' ff' st'
      = (Throws (runtime_error "Worker already initialized"), st')) /\
  (forall worker st,
      worker <> thread_context_data st \/
      has_context st = false \/ has_fibre st = false ->
      exists what, finalize worker st = (Throws (runtime_error what), st)) /\
  (forall worker st st' worker',
      finalize worker st = (Returns tt, st') ->
      exists what, finalize worker' st' = (Throws (runtime_error what), st')) /\
  (forall addr worker,
      exists what,
        finalize worker (fresh addr) = (Throws (runtime_error what), fresh addr)).
Proof.
  split; [|split; [|split; [|split]]].
  - intros. by apply worker_init_guards_set.
  - intros * Hret *. apply worker_init_returns in Hret as (Hc & Hf & _).
    by apply worker_init_guards_set.
  - intros worker st [Hne | Hg].
    + rewrite finalize_wrong_pointer by exact Hne. eauto.
    + by apply finalize_guard_clear.
  - intros * Hret. apply finalize_returns in Hret as (Hc & _).
    apply finalize_guard_clear. by left.
  - intros. apply finalize_guard_clear. by left.
Qed.

(** The theorem on a thread that is initialised, initialised again,
    finalised with a foreign pointer, finalised, and finalised again. *)
Lemma misuse_is_reported_witness :
  let st1 := snd (worker_init 7 None None (fresh 4096)) in
  let st2 := snd (finalize 4096 st1) in
  worker_init 8 None None st1
  = (Throws (runtime_error "Worker already initialized"), st1) /\
  (exists what, finalize 4100 st1 = (Throws (runtime_error what), st1)) /\
  (exists what, finalize 4096 st2 = (Throws (runtime_error what), st2)).
Proof.
  destruct misuse_is_reported as (_ & Hinit & Hfin & Htwice & _).
  split; [|split].
  - apply (Hinit 7%nat None None (fresh 4096) 4096). reflexivity.
  - apply Hfin. left. vm_compute. discriminate.
  - apply (Htwice 4096 (snd (worker_init 7 None None (fresh 4096)))).
    reflexivity.
Defined.

End TlsFacts.


(** ** The worker's steps *)

Module WorkerFacts.
Import Lanes LanesFacts Worker.
Local Open Scope Z_scope.

(** Case analysis on a step [H : work re p r = Some (a, p', r')]: one case
    per program point and per outcome of the tests made there. *)
Ltac work_cases H :=
  match type of H with
  | work _ ?p _ = Some _ =>
      destruct p as [| | |? []| |?|?|?| |?|?|?|]; cbn in H;
      repeat match type of H with
        | context [match ?x with _ => _ end] => destruct x eqn:?
        end;
      try discriminate H;
      injection H as <- <- <-
  end.

(** No step of a worker changes the stop flag, and only [fetch_add] and
    [fetch_sub] change the counter. *)
Lemma work_stop re p r a p' r' :
  work re p r = Some (a, p', r') -> stop r' = stop r.
Proof. intros H. work_cases H; first [reflexivity | assumption]. Qed.

Lemma work_counter re p r a p' r' :
  work re p r = Some (a, p', r') ->
  writes_counter a = false -> dual_count r' = dual_count r.
Proof. intros H. work_cases H; cbn; first [reflexivity | discriminate]. Qed.

(** A worker that has neither returned nor is held in [wait] takes a
    step. *)
Lemma work_progress re p r :
  p <> returned -> (forall k, p = in_wait k -> re_wait_returns re = true) ->
  exists a p' r', work re p r = Some (a, p', r').
Proof.
  intros Hp Hw.
  destruct p as [| | |h q| |k|h|k| |k|k|k|]; cbn; try congruence;
    try destruct q; cbn;
    rewrite ?(Hw _ eq_refl);
    repeat match goal with
      | |- context [match ?x with _ => _ end] => destruct x
      end;
    eauto.
Qed.

(** C8. Packed-lane arithmetic. For a 64-bit word whose thief lane is at
    least 1 and whose active lane is at most [2^32 - 2], adding
    [k_active - k_thieve = 2^32 - 1] modulo [2^64] does not wrap the word,
    leaves the thief lane one smaller and the active lane one greater, and
    subtracting the same constant from the resulting word gives the original
    word back; these two words are what the promotion and the demotion of
    [thief_round_trip] store in the counter. *)
Theorem promotion_moves_one_thief_to_active (w : Z) :
  is_uint64 w -> 1 <= thieves w -> actives w <= 2 ^ 32 - 2 ->
  wrap64 (k_active - k_thieve) = 2 ^ 32 - 1 /\
  promoted w = w + (2 ^ 32 - 1) /\
  thieves (promoted w) = thieves w - 1 /\
  actives (promoted w) = actives w + 1 /\
  demoted (promoted w) = w /\
  (forall h st,
      dual_count (snd (thief_round_trip h rt_promote (mk_atomics w st)))
      = promoted w /\
      dual_count (snd (thief_round_trip h rt_demote (mk_atomics (promoted w) st)))
      = w).
Proof.
  intros Hw Ht Ha.
  destruct (lanes_bounds w Hw) as [HtB HaB].
  pose proof (pack_of_lanes w Hw) as Hpack.
  set (a := actives w) in *. set (t := thieves w) in *.
  assert (Hp : promoted w = pack (a + 1) (t - 1)).
  { rewrite Hpack at 1. apply promoted_pack; lia. }
  assert (Hd : demoted (promoted w) = w).
  { rewrite Hp, demoted_pack by lia. unfold pack in *; lia. }
  destruct (lanes_of_pack (a + 1) (t - 1)) as (_ & HT & HA); [lia | lia |].
  split; [reflexivity|].
  split; [rewrite Hp; unfold pack in *; lia|].
  split; [rewrite Hp; exact HT|]. split; [rewrite Hp; exact HA|].
  split; [exact Hd|].
  intros h st. split; [reflexivity | exact Hd].
Qed.

(** The theorem at the word with two thieves and one active worker. *)
Lemma promotion_moves_one_thief_to_active_witness :
  promoted (pack 1 2) = pack 2 1 /\ demoted (promoted (pack 1 2)) = pack 1 2.
Proof.
  destruct (promotion_moves_one_thief_to_active (pack 1 2))
    as (_ & H1 & _ & _ & H2 & _).
  - unfold is_uint64, pack. lia.
  - vm_compute. discriminate.
  - vm_compute. discriminate.
  - split; [rewrite H1; reflexivity | exact H2].
Defined.

(** The test of the park attempt (line 232) in terms of the two lanes. *)
Lemma park_test w :
  is_uint64 w ->
  (Z.land w k_thieve_mask =? 1) && negb (Z.land w k_active_mask =? 0) = true
  <-> thieves w = 1 /\ actives w <> 0.
Proof.
  intros Hw. fold (thieves w). fold (actives_bits w).
  rewrite andb_true_iff, negb_true_iff, Z.eqb_eq, Z.eqb_neq.
  rewrite (actives_bits_zero w Hw). reflexivity.
Qed.

(** Removing and adding one thief on a 64-bit word, lane by lane. *)
Lemma sub_thief_word w :
  is_uint64 w -> 1 <= thieves w ->
  wrap64 (w - k_thieve) = w - 1 /\
  thieves (w - 1) = thieves w - 1 /\ actives (w - 1) = actives w.
Proof.
  intros Hw Ht. destruct (lanes_bounds w Hw) as [HtB HaB].
  pose proof (pack_of_lanes w Hw) as Hpack.
  pose proof (sub_thief_pack (actives w) (thieves w) HaB ltac:(lia)) as Hsub.
  rewrite <- Hpack in Hsub.
  destruct (lanes_of_pack (actives w) (thieves w - 1)) as (_ & HT & HA);
    [lia | lia |].
  assert (Heq : w - 1 = pack (actives w) (thieves w - 1))
    by (rewrite Hpack at 1; unfold pack; lia).
  rewrite Hsub, Heq, HT, HA. rewrite <- Heq. auto.
Qed.

Lemma add_thief_word w :
  is_uint64 w -> thieves w <= 2 ^ 32 - 2 ->
  wrap64 (w + k_thieve) = w + 1 /\
  thieves (w + 1) = thieves w + 1 /\ actives (w + 1) = actives w.
Proof.
  intros Hw Ht. destruct (lanes_bounds w Hw) as [HtB HaB].
  pose proof (pack_of_lanes w Hw) as Hpack.
  pose proof (add_thief_pack (actives w) (thieves w) HaB ltac:(lia)) as Hadd.
  rewrite <- Hpack in Hadd.
  destruct (lanes_of_pack (actives w) (thieves w + 1)) as (_ & HT & HA);
    [lia | lia |].
  assert (Heq : w + 1 = pack (actives w) (thieves w + 1))
    by (rewrite Hpack at 1; unfold pack; lia).
  rewrite Hadd, Heq, HT, HA. rewrite <- Heq. auto.
Qed.

(** C5. Sleep-abort compensation. The worker at the park decrement, whatever
    its peers do in between. When the value read by [fetch_sub(k_thieve)] has
    thief lane 1 and a non-zero active lane: the step stores the word with
    thief lane 0 and the same active lane, the worker does not call [wait],
    and its next operation is the entry increment [fetch_add(k_thieve)] at
    [wake_up], which on the word the park stored stores the word read by the
    park again. In every other case the step stores the word with one thief
    less (when there was one) and the worker's next operation is
    [wait(key)], which leaves the counter as it is. On any word the peers
    have left, the increment at [wake_up] stores the word with one thief
    more and the same active lane. *)
Theorem park_aborts_iff_last_thief_beside_active
    (k : key) (re re' : replies) (r r' : remote_atomics) :
  is_uint64 (dual_count r) ->
  (thieves (dual_count r) = 1 /\ actives (dual_count r) <> 0 ->
   run [(re, r); (re', r')] (park k)
   = ([a_fetch_sub k_thieve (dual_count r);
       a_fetch_add k_thieve (dual_count r')], continue_as_thief) /\
   work re (park k) r
   = Some (a_fetch_sub k_thieve (dual_count r), wake_up,
           mk_atomics (dual_count r - 1) (stop r)) /\
   thieves (dual_count r - 1) = 0 /\
   actives (dual_count r - 1) = actives (dual_count r) /\
   work re' wake_up (mk_atomics (dual_count r - 1) (stop r))
   = Some (a_fetch_add k_thieve (dual_count r - 1), continue_as_thief,
           mk_atomics (dual_count r) (stop r))) /\
  (~ (thieves (dual_count r) = 1 /\ actives (dual_count r) <> 0) ->
   run [(re, r); (re', r')] (park k)
   = ([a_fetch_sub k_thieve (dual_count r); a_wait k], in_wait k) /\
   work re (park k) r
   = Some (a_fetch_sub k_thieve (dual_count r), before_wait k,
           mk_atomics (wrap64 (dual_count r - k_thieve)) (stop r)) /\
   (1 <= thieves (dual_count r) ->
    wrap64 (dual_count r - k_thieve) = dual_count r - 1 /\
    thieves (dual_count r - 1) = thieves (dual_count r) - 1 /\
    actives (dual_count r - 1) = actives (dual_count r)) /\
   work re' (before_wait k) r' = Some (a_wait k, in_wait k, r')) /\
  (is_uint64 (dual_count r') -> thieves (dual_count r') <= 2 ^ 32 - 2 ->
   work re' wake_up r'
   = Some (a_fetch_add k_thieve (dual_count r'), continue_as_thief,
           mk_atomics (dual_count r' + 1) (stop r')) /\
   thieves (dual_count r' + 1) = thieves (dual_count r') + 1 /\
   actives (dual_count r' + 1) = actives (dual_count r')).
Proof.
  intros Hw. pose proof (park_test (dual_count r) Hw) as Htest.
  split; [|split].
  - intros Hc. pose proof (proj2 Htest Hc) as Hb. destruct Hc as [Ht Ha].
    destruct (sub_thief_word _ Hw ltac:(lia)) as (Hsub & HT & HA).
    assert (Hw' : is_uint64 (dual_count r - 1)).
    { rewrite <- Hsub. apply wrap64_uint64. }
    destruct (add_thief_word _ Hw' ltac:(lia)) as (Hadd & _).
    split; [cbn [run work fetch_sub fetch_add]; rewrite Hb; reflexivity|].
    split; [cbn [work fetch_sub]; rewrite Hb, Hsub; reflexivity|].
    split; [lia|]. split; [exact HA|].
    cbn [work fetch_add dual_count stop]. rewrite Hadd.
    replace (dual_count r - 1 + 1) with (dual_count r) by lia. reflexivity.
  - intros Hc.
    assert (Hb : (Z.land (dual_count r) k_thieve_mask =? 1)
                 && negb (Z.land (dual_count r) k_active_mask =? 0) = false).
    { apply not_true_is_false. intros Hb. apply Hc, Htest. exact Hb. }
    split; [cbn [run work fetch_sub fetch_add]; rewrite Hb; reflexivity|].
    split; [cbn [work fetch_sub]; rewrite Hb; reflexivity|].
    split; [intros Ht; exact (sub_thief_word _ Hw Ht) | reflexivity].
  - intros Hw' Ht'. destruct (add_thief_word _ Hw' Ht') as (Hadd & HT & HA).
    split; [cbn [work fetch_add]; rewrite Hadd; reflexivity|].
    split; assumption.
Qed.

(** The theorem at a counter with one thief beside one active worker (the
    sleep is aborted, the park stores the word without thief and the
    increment stores the original word again) and at a counter with two
    thieves (the park stores the word with one thief and the worker
    waits). *)
Lemma park_aborts_iff_last_thief_beside_active_witness :
  (run [(mk_replies None None 0%nat false, mk_atomics (pack 1 1) false);
        (mk_replies None None 0%nat false, mk_atomics (pack 1 0) false)] (park 5%nat)
   = ([a_fetch_sub k_thieve (pack 1 1); a_fetch_add k_thieve (pack 1 0)],
      continue_as_thief) /\
   work (mk_replies None None 0%nat false) (park 5%nat)
        (mk_atomics (pack 1 1) false)
   = Some (a_fetch_sub k_thieve (pack 1 1), wake_up,
           mk_atomics (pack 1 1 - 1) false) /\
   thieves (pack 1 1 - 1) = 0 /\
   actives (pack 1 1 - 1) = actives (pack 1 1) /\
   work (mk_replies None None 0%nat false) wake_up
        (mk_atomics (pack 1 1 - 1) false)
   = Some (a_fetch_add k_thieve (pack 1 1 - 1), continue_as_thief,
           mk_atomics (pack 1 1) false)) /\
  (run [(mk_replies None None 0%nat false, mk_atomics (pack 0 2) false);
        (mk_replies None None 0%nat false, mk_atomics (pack 0 1) false)] (park 5%nat)
   = ([a_fetch_sub k_thieve (pack 0 2); a_wait 5%nat], in_wait 5%nat) /\
   work (mk_replies None None 0%nat false) (park 5%nat)
        (mk_atomics (pack 0 2) false)
   = Some (a_fetch_sub k_thieve (pack 0 2), before_wait 5%nat,
           mk_atomics (wrap64 (pack 0 2 - k_thieve)) false)).
Proof.
  split.
  - apply (park_aborts_iff_last_thief_beside_active 5%nat
             (mk_replies None None 0%nat false) (mk_replies None None 0%nat false)
             (mk_atomics (pack 1 1) false) (mk_atomics (pack 1 0) false)).
    + unfold is_uint64, pack. simpl. lia.
    + split; vm_compute; congruence.
  - destruct (park_aborts_iff_last_thief_beside_active 5%nat
                (mk_replies None None 0%nat false) (mk_replies None None 0%nat false)
                (mk_atomics (pack 0 2) false) (mk_atomics (pack 0 1) false))
      as (_ & Hwait & _).
    + unfold is_uint64, pack. simpl. lia.
    + destruct Hwait as (Hrun & Hstep & _).
      * vm_compute. intros [H _]. discriminate H.
      * split; [exact Hrun | exact Hstep].
Defined.

End WorkerFacts.

(** ** The pool: what the counter counts *)

Module PoolFacts.
Import Lanes LanesFacts Worker WorkerFacts Pool Executions.
Local Open Scope Z_scope.

(** *** Counting program points *)

(** Every program point lies in exactly one of the three classes. *)
Lemma classes_partition p :
  bz (is_active p) + bz (is_thief p) + bz (is_unregistered p) = 1.
Proof. destruct p as [| | |h []| | | | | | | | |]; reflexivity. Qed.

Lemma count_cons f p ws :
  Z.of_nat (count f (p :: ws)) = bz (f p) + Z.of_nat (count f ws).
Proof. unfold count. cbn. destruct (f p); cbn [bz]; lia. Qed.

Lemma count_app f ws1 ws2 :
  count f (ws1 ++ ws2) = (count f ws1 + count f ws2)%nat.
Proof. unfold count. apply sum_list_with_app. Qed.

Lemma count_replicate f p n :
  Z.of_nat (count f (replicate n p)) = bz (f p) * Z.of_nat n.
Proof.
  induction n as [|n IH]; [cbn; lia|].
  cbn [replicate]. rewrite count_cons, IH. lia.
Qed.

Lemma count_total ws :
  Z.of_nat (count is_active ws) + Z.of_nat (count is_thief ws)
  + Z.of_nat (count is_unregistered ws) = Z.of_nat (length ws).
Proof.
  induction ws as [|p ws IH]; [reflexivity|].
  rewrite !count_cons. pose proof (classes_partition p).
  cbn [length]. lia.
Qed.

(** Replacing the program point of one worker changes a count by the
    difference of the two memberships. *)
Lemma count_insert f (ws : list pc) i p p' :
  ws !! i = Some p ->
  Z.of_nat (count f (<[i:=p']> ws))
  = Z.of_nat (count f ws) - bz (f p) + bz (f p').
Proof.
  intros Hi.
  assert (Hlt : (i < length ws)%nat) by (eapply lookup_lt_Some; eauto).
  rewrite (insert_take_drop ws i p' Hlt).
  pose proof (f_equal (fun l => Z.of_nat (count f l))
                (take_drop_middle ws i p Hi)) as Hmid.
  cbv beta in Hmid.
  rewrite count_app, Nat2Z.inj_add, count_cons in Hmid.
  rewrite count_app, Nat2Z.inj_add, count_cons. lia.
Qed.

Lemma count_lookup_le f (ws : list pc) i p :
  ws !! i = Some p -> bz (f p) <= Z.of_nat (count f ws).
Proof.
  intros Hi. apply list_elem_of_lookup_2 in Hi.
  pose proof (sum_list_with_in p (fun p => if f p then 1%nat else 0%nat) ws Hi)
    as Hle.
  cbv beta in Hle. unfold count. destruct (f p); cbn [bz]; lia.
Qed.

Lemma count_le_parked ws : (count is_parked ws <= count is_unregistered ws)%nat.
Proof.
  induction ws as [|p ws IH]; [reflexivity|].
  unfold count in *. cbn. destruct p; cbn; lia.
Qed.

(** *** One step of a worker on a packed counter *)

Lemma promote_raw a t :
  0 <= a < 2 ^ 32 - 1 -> 1 <= t < 2 ^ 32 ->
  wrap64 (pack a t + wrap64 (k_active - k_thieve)) = pack (a + 1) (t - 1).
Proof. exact (promoted_pack a t). Qed.

Lemma demote_raw a t :
  1 <= a < 2 ^ 32 -> 0 <= t < 2 ^ 32 - 1 ->
  wrap64 (pack a t - wrap64 (k_active - k_thieve)) = pack (a - 1) (t + 1).
Proof. exact (demoted_pack a t). Qed.

(** The effect of one step of a worker on a counter that holds [a] active
    workers and [t] thieves, the worker itself included, with room for one
    more thief. *)
Lemma work_lanes re p r act p' r' a t :
  work re p r = Some (act, p', r') ->
  dual_count r = pack a t ->
  bz (is_active p) <= a -> bz (is_thief p) <= t ->
  a + t + bz (is_unregistered p) < 2 ^ 32 ->
  dual_count r'
  = pack (a - bz (is_active p) + bz (is_active p'))
         (t - bz (is_thief p) + bz (is_thief p')).
Proof.
  intros Hstep Hd Ha Ht Hroom.
  work_cases Hstep;
    cbn [dual_count is_active is_thief is_unregistered negb andb bz] in *;
    rewrite ?Hd;
    rewrite ?add_thief_pack, ?sub_thief_pack, ?promote_raw, ?demote_raw by lia;
    f_equal; lia.
Qed.

(** *** The counter counts the registered workers *)

Section Registered.

Variable n : nat.
Hypothesis n_fits : Z.of_nat n < 2 ^ 32.

Lemma start_registered : registered n (start n).
Proof.
  split; unfold start; cbn [m_workers m_atomics dual_count].
  - apply length_replicate.
  - rewrite !count_replicate. reflexivity.
Qed.

Lemma step_registered s m e s' :
  registered n s -> step s m = Some (e, s') -> registered n s'.
Proof.
  intros [Hlen Hd] Hstep. destruct m as [i re|]; cbn in Hstep.
  - destruct (m_workers s !! i) as [p|] eqn:Hi; [|discriminate].
    destruct (work re p (m_atomics s)) as [[[a p'] r']|] eqn:Hw; [|discriminate].
    injection Hstep as <- <-. split; cbn [m_workers m_atomics].
    + rewrite length_insert. exact Hlen.
    + pose proof (count_total (m_workers s)) as Htot.
      pose proof (count_lookup_le is_active _ _ _ Hi).
      pose proof (count_lookup_le is_thief _ _ _ Hi).
      pose proof (count_lookup_le is_unregistered _ _ _ Hi).
      pose proof (classes_partition p).
      rewrite (work_lanes _ _ _ _ _ _ _ _ Hw Hd) by lia.
      rewrite !(count_insert _ _ _ _ _ Hi). reflexivity.
  - injection Hstep as <- <-. split; [exact Hlen | exact Hd].
Qed.

Lemma reachable_registered s : reachable n s -> registered n s.
Proof.
  intros Hr. induction Hr as [|s m e s' _ IH Hstep].
  - apply start_registered.
  - eapply step_registered; eauto.
Qed.

(** Under [registered], the lanes read from the counter are the counts. *)
Lemma registered_lanes s :
  registered n s ->
  is_uint64 (dual_count (m_atomics s)) /\
  T_of s = Z.of_nat (count is_thief (m_workers s)) /\
  A_of s = Z.of_nat (count is_active (m_workers s)) /\
  S_of n s = Z.of_nat (count is_unregistered (m_workers s)).
Proof.
  intros [Hlen Hd].
  pose proof (count_total (m_workers s)) as Htot. rewrite Hlen in Htot.
  destruct (lanes_of_pack (Z.of_nat (count is_active (m_workers s)))
                          (Z.of_nat (count is_thief (m_workers s))))
    as (Hu & HT & HA); [lia | lia |].
  unfold S_of, T_of, A_of. rewrite Hd.
  split; [exact Hu|]. rewrite HT, HA. repeat split; lia.
Qed.

(** How one step of worker [i] moves the lanes. *)
Lemma step_lanes s i re p a p' r' :
  registered n s ->
  m_workers s !! i = Some p ->
  work re p (m_atomics s) = Some (a, p', r') ->
  let s' := mk_pool r' (<[i:=p']> (m_workers s)) in
  T_of s' = T_of s - bz (is_thief p) + bz (is_thief p') /\
  A_of s' = A_of s - bz (is_active p) + bz (is_active p') /\
  S_of n s' = S_of n s - bz (is_unregistered p) + bz (is_unregistered p') /\
  bz (is_thief p) <= T_of s /\ bz (is_active p) <= A_of s /\
  bz (is_unregistered p) <= S_of n s.
Proof.
  intros Hreg Hi Hw s'.
  assert (Hstep : step s (worker_moves i re) = Some (worker_does i a, s')).
  { cbn. rewrite Hi, Hw. reflexivity. }
  pose proof (step_registered s _ _ _ Hreg Hstep) as Hreg'.
  destruct (registered_lanes s Hreg) as (_ & -> & -> & ->).
  destruct (registered_lanes s' Hreg') as (_ & -> & -> & ->).
  subst s'. cbn [m_workers].
  rewrite !(count_insert _ _ _ _ _ Hi).
  pose proof (count_lookup_le is_active _ _ _ Hi).
  pose proof (count_lookup_le is_thief _ _ _ Hi).
  pose proof (count_lookup_le is_unregistered _ _ _ Hi).
  repeat split; lia.
Qed.

End Registered.

(** *** Executions *)

Lemma exec_reachable n ms : forall s es s',
  reachable n s -> exec ms s = Some (es, s') -> reachable n s'.
Proof.
  induction ms as [|m ms IH]; cbn; intros s es s' Hr Hex.
  - injection Hex as <- <-. exact Hr.
  - destruct (step s m) as [[e s1]|] eqn:Hstep; [|discriminate].
    destruct (exec ms s1) as [[es1 s2]|] eqn:Hrest; [|discriminate].
    injection Hex as <- <-.
    eapply IH; [|exact Hrest]. eapply reachable_step; eauto.
Qed.

Lemma worker1_decremented_reachable : reachable 2 worker1_decremented.
Proof.
  eapply (exec_reachable 2 worker1_parks); [constructor | vm_compute; reflexivity].
Qed.

Lemma before_promotion_reachable : reachable 2 before_promotion.
Proof.
  eapply (exec_reachable 2 worker0_takes_batch);
    [exact worker1_decremented_reachable | vm_compute; reflexivity].
Qed.

Lemma before_park_reachable : reachable 2 before_park.
Proof.
  eapply (exec_reachable 2 worker1_parks_beside_active);
    [constructor | vm_compute; reflexivity].
Qed.

Lemma after_park_reachable : reachable 2 after_park.
Proof.
  apply (reachable_step 2 before_park (worker_moves 1 quiet)
           (worker_does 1 (a_fetch_sub k_thieve (pack 1 1))));
    [exact before_park_reachable | reflexivity].
Qed.

Lemma stop_requested_reachable : reachable 1 stop_requested.
Proof.
  eapply (exec_reachable 1 lone_worker_prepares);
    [constructor | vm_compute; reflexivity].
Qed.

Lemma lone_worker_stops_exec :
  exec lone_worker_stops stop_requested
  = Some ([worker_does 0 (a_stop_test true); worker_does 0 a_cancel_wait],
          lone_worker_returned).
Proof. reflexivity. Qed.

Lemma actions_of_cons_same i a es :
  actions_of i (worker_does i a :: es) = a :: actions_of i es.
Proof. unfold actions_of. cbn. rewrite Nat.eqb_refl. reflexivity. Qed.

Lemma actions_of_cons_other i j a es :
  i <> j -> actions_of i (worker_does j a :: es) = actions_of i es.
Proof.
  intros Hne. unfold actions_of. cbn.
  destruct (Nat.eqb_spec i j); [contradiction | reflexivity].
Qed.

(** *** Invariant I2 *)

(** C7 as stated fails: with [S] the number of workers blocked in the
    notifier, [T + A + S] is 0 in the initial state of a pool of one worker,
    and 1 in a pool of two workers after worker 1 has performed its park
    decrement and before it calls [wait]. *)
Lemma parked_workers_do_not_make_up_N :
  (reachable 1 (start 1) /\
   T_of (start 1) + A_of (start 1) + parked (start 1) <> Z.of_nat 1) /\
  (reachable 2 worker1_decremented /\
   T_of worker1_decremented + A_of worker1_decremented
   + parked worker1_decremented <> Z.of_nat 2).
Proof.
  split; split.
  - constructor.
  - vm_compute. discriminate.
  - exact worker1_decremented_reachable.
  - vm_compute. discriminate.
Qed.

(** C7, amended. In every reachable state of a pool of [n < 2^32] workers,
    also after the stop flag is set: the thief lane is the number of workers
    between their entry increment and their park decrement outside
    [thief_round_trip] (a worker that returned on the stop path included),
    the active lane is the number of workers between promotion and demotion,
    and [T + A + U = n], where [U] counts the remaining workers: those about
    to perform the entry increment, and those between the park decrement and
    the return of [wait]. The workers blocked in the notifier are among the
    latter, so their number is at most [n - T - A]. *)
Theorem lanes_count_the_registered_workers (n : nat) (s : pool) :
  Z.of_nat n < 2 ^ 32 -> reachable n s ->
  T_of s = Z.of_nat (count is_thief (m_workers s)) /\
  A_of s = Z.of_nat (count is_active (m_workers s)) /\
  T_of s + A_of s + Z.of_nat (count is_unregistered (m_workers s)) = Z.of_nat n /\
  0 <= parked s <= Z.of_nat n - T_of s - A_of s.
Proof.
  intros Hn Hr. pose proof (reachable_registered n Hn s Hr) as Hreg.
  destruct (registered_lanes n Hn s Hreg) as (_ & HT & HA & HS).
  pose proof (count_le_parked (m_workers s)).
  unfold S_of in HS. unfold parked. repeat split; lia.
Qed.

(** The theorem in the state where worker 1 has decremented the thief lane
    and is not yet blocked: one thief, nobody active, nobody parked. *)
Lemma lanes_count_the_registered_workers_witness :
  T_of worker1_decremented = 1 /\ A_of worker1_decremented = 0 /\
  T_of worker1_decremented + A_of worker1_decremented
  + Z.of_nat (count is_unregistered (m_workers worker1_decremented)) = 2 /\
  0 <= parked worker1_decremented
    <= 2 - T_of worker1_decremented - A_of worker1_decremented.
Proof.
  apply (lanes_count_the_registered_workers 2 worker1_decremented).
  - simpl. lia.
  - exact worker1_decremented_reachable.
Defined.

(** *** Invariant I1 *)

(** C1 as stated fails, in a pool of two workers. (a) A reachable state
    satisfies I1, worker 0 (the last thief, holding a submitted batch)
    performs the promotion [fetch_add], and in the resulting state one worker
    is active, the thief lane is zero and worker 1 is blocked in [wait].
    (b) A reachable state satisfies I1, worker 1 (the last thief, beside the
    active worker 0) performs the park [fetch_sub], and in the resulting
    state one worker is active, the thief lane is zero and [S = 1]. *)
Lemma last_thief_steps_break_I1 :
  (reachable 2 before_promotion /\ I1 2 before_promotion /\
   step before_promotion (worker_moves 0 quiet)
   = Some (worker_does 0 (a_fetch_add k_promote (pack 0 1)), after_promotion) /\
   A_of after_promotion = 1 /\ T_of after_promotion = 0 /\
   S_of 2 after_promotion = 1 /\ parked after_promotion = 1 /\
   ~ I1 2 after_promotion) /\
  (reachable 2 before_park /\ I1 2 before_park /\
   step before_park (worker_moves 1 quiet)
   = Some (worker_does 1 (a_fetch_sub k_thieve (pack 1 1)), after_park) /\
   A_of after_park = 1 /\ T_of after_park = 0 /\ S_of 2 after_park = 1 /\
   ~ I1 2 after_park).
Proof.
  split.
  - split; [exact before_promotion_reachable|].
    split; [intros _; left; vm_compute; discriminate|].
    repeat (split; [reflexivity|]).
    intros H. destruct H as [H | H]; [reflexivity | | discriminate H].
    apply H. reflexivity.
  - split; [exact before_park_reachable|].
    split; [intros _; left; vm_compute; discriminate|].
    repeat (split; [reflexivity|]).
    intros H. destruct H as [H | H]; [reflexivity | | discriminate H].
    apply H. reflexivity.
Qed.

(** C1, amended. In a reachable state of a pool of [n < 2^32] workers that
    satisfies I1 (with [S = n - T - A]), every step leads to a state that
    satisfies I1, except two: the promotion [fetch_add] of
    [thief_round_trip] by the last thief ([T = 1] before), after which that
    worker is about to call [notify_one]; and the park [fetch_sub] by the
    last thief beside an active worker ([T = 1], [A > 0] before), after
    which that worker is at [wake_up]. From a reachable state that does
    not satisfy I1, every step either leaves the counter as it is or leads
    to a state that satisfies I1: the next write to the counter restores
    I1. And in every reachable state, the step of a worker at [wake_up] is
    the increment of the thief lane and leads to a state that satisfies
    I1. *)
Theorem I1_kept_except_by_the_last_thief (n : nat) (s : pool) :
  Z.of_nat n < 2 ^ 32 -> reachable n s ->
  (forall m e s',
      step s m = Some (e, s') -> I1 n s ->
      I1 n s' \/
      (exists i h,
          e = worker_does i (a_fetch_add k_promote (dual_count (m_atomics s))) /\
          T_of s = 1 /\
          m_workers s' !! i = Some (in_round_trip h rt_notify)) \/
      (exists i,
          e = worker_does i (a_fetch_sub k_thieve (dual_count (m_atomics s))) /\
          T_of s = 1 /\ A_of s > 0 /\
          m_workers s' !! i = Some wake_up)) /\
  (forall m e s',
      step s m = Some (e, s') -> ~ I1 n s ->
      dual_count (m_atomics s') = dual_count (m_atomics s) \/ I1 n s') /\
  (forall i re,
      m_workers s !! i = Some wake_up ->
      exists s',
        step s (worker_moves i re)
        = Some (worker_does i (a_fetch_add k_thieve (dual_count (m_atomics s))), s') /\
        T_of s' = T_of s + 1 /\ I1 n s').
Proof.
  intros Hn Hr. pose proof (reachable_registered n Hn s Hr) as Hreg.
  destruct (registered_lanes n Hn s Hreg) as (Hu & _).
  split; [|split].
  - intros m e s' Hstep HI. destruct m as [i re|]; cbn in Hstep.
    2: { injection Hstep as <- <-. left. exact HI. }
    destruct (m_workers s !! i) as [p|] eqn:Hi; [|discriminate].
    destruct (work re p (m_atomics s)) as [[[a p'] r']|] eqn:Hw; [|discriminate].
    injection Hstep as <- <-.
    assert (Hlt : (i < length (m_workers s))%nat) by (eapply lookup_lt_Some; eauto).
    destruct (step_lanes n Hn s i re p a p' r' Hreg Hi Hw)
      as (HT & HA & HS & HTp & HAp & HSp).
    unfold I1 in *.
    set (s' := mk_pool r' (<[i:=p']> (m_workers s))) in *.
    assert (Hi' : m_workers s' !! i = Some p')
      by (apply list_lookup_insert_eq; exact Hlt).
    clearbody s'.
    work_cases Hw;
      cbn [is_active is_thief is_unregistered negb andb bz] in *;
      try (left; lia).
    + (* promotion, the thief lane read is 1 *)
      right; left. eexists i, _. repeat split; [|exact Hi'].
      apply Z.eqb_eq. assumption.
    + (* promotion, the thief lane read is not 1 *)
      left. assert (T_of s <> 1) by (apply Z.eqb_neq; assumption). lia.
    + (* park decrement, aborted *)
      right; right. exists i.
      match goal with H : _ && _ = true |- _ =>
        apply (park_test _ Hu) in H; destruct H as [Ht Ha] end.
      pose proof (proj2 (lanes_bounds _ Hu)).
      repeat split; [exact Ht | unfold A_of; lia | exact Hi'].
    + (* park decrement, the worker goes on to wait *)
      left.
      match goal with H : _ && _ = false |- _ =>
        assert (Hno : ~ (thieves (dual_count (m_atomics s)) = 1 /\
                         actives (dual_count (m_atomics s)) <> 0))
          by (rewrite <- (park_test _ Hu), H; discriminate) end.
      unfold T_of, A_of in *. lia.
  - intros m e s' Hstep HnI. destruct m as [i re|]; cbn in Hstep.
    2: { injection Hstep as <- <-. left. reflexivity. }
    destruct (m_workers s !! i) as [p|] eqn:Hi; [|discriminate].
    destruct (work re p (m_atomics s)) as [[[a p'] r']|] eqn:Hw; [|discriminate].
    injection Hstep as <- <-.
    destruct (step_lanes n Hn s i re p a p' r' Hreg Hi Hw)
      as (HT & HA & HS & HTp & HAp & HSp).
    pose proof (proj1 (lanes_bounds _ Hu)) as HT0. fold (T_of s) in HT0.
    unfold I1 in *. cbn [m_atomics].
    work_cases Hw;
      cbn [is_active is_thief is_unregistered negb andb bz dual_count] in *;
      first [left; reflexivity | right; lia | exfalso; lia].
  - intros i re Hi. eexists. split; [cbn; rewrite Hi; reflexivity|].
    destruct (step_lanes n Hn s i re wake_up _ continue_as_thief _ Hreg Hi eq_refl)
      as (HT & _ & _ & HTp & _).
    cbn [is_thief is_active is_unregistered negb andb bz] in *.
    split; [cbn [work fetch_add] in HT |- *; lia|].
    intros _. left. cbn [work fetch_add] in HT |- *. lia.
Qed.

(** The theorem at the promotion of the example execution (the second
    alternative holds there), at the re-increment after the aborted sleep of
    the other example (I1 is restored), and at the first step of a pool of
    two. *)
Lemma I1_kept_except_by_the_last_thief_witness :
  (I1 2 after_promotion \/
   (exists i h,
       worker_does 0 (a_fetch_add k_promote (pack 0 1))
       = worker_does i (a_fetch_add k_promote
                          (dual_count (m_atomics before_promotion))) /\
       T_of before_promotion = 1 /\
       m_workers after_promotion !! i = Some (in_round_trip h rt_notify)) \/
   (exists i,
       worker_does 0 (a_fetch_add k_promote (pack 0 1))
       = worker_does i (a_fetch_sub k_thieve
                          (dual_count (m_atomics before_promotion))) /\
       T_of before_promotion = 1 /\ A_of before_promotion > 0 /\
       m_workers after_promotion !! i = Some wake_up)) /\
  (dual_count (m_atomics after_reentry) = dual_count (m_atomics after_park) \/
   I1 2 after_reentry) /\
  (exists s',
      step (start 2) (worker_moves 0 quiet)
      = Some (worker_does 0 (a_fetch_add k_thieve
                               (dual_count (m_atomics (start 2)))), s') /\
      T_of s' = T_of (start 2) + 1 /\ I1 2 s').
Proof.
  split; [|split].
  - apply (proj1 (I1_kept_except_by_the_last_thief 2 before_promotion
                    ltac:(simpl; lia) before_promotion_reachable)
             (worker_moves 0 quiet)).
    + reflexivity.
    + intros _. left. vm_compute. discriminate.
  - apply (proj1 (proj2 (I1_kept_except_by_the_last_thief 2 after_park
                           ltac:(simpl; lia) after_park_reachable))
             (worker_moves 1 quiet)
             (worker_does 1 (a_fetch_add k_thieve (pack 1 0)))).
    + reflexivity.
    + intros H. destruct H as [H | H]; [reflexivity | | discriminate H].
      apply H. reflexivity.
  - apply (proj2 (proj2 (I1_kept_except_by_the_last_thief 2 (start 2)
                           ltac:(simpl; lia) (reachable_start 2))) 0%nat quiet).
    reflexivity.
Defined.

(** *** The round trip and the stop path in a pool *)

(** C4. Last-thief wake. In a reachable state of a pool of [n < 2^32]
    workers, the step of a worker at the promotion of [thief_round_trip] is
    one [fetch_add(k_active - k_thieve)] on the counter, after which the
    active lane is one greater and the thief lane one smaller; and, whatever
    the peers do in between, the worker's actions until [thief_round_trip]
    returns are that [fetch_add], then [notify_one] exactly when the thief
    lane read was 1, then the resumptions, then the demoting [fetch_sub]. *)
Theorem last_thief_promotion_notifies_one
    (n : nat) (s : pool) (i : nat) (h : handle) :
  Z.of_nat n < 2 ^ 32 -> reachable n s ->
  m_workers s !! i = Some (in_round_trip h rt_promote) ->
  (forall re, exists s',
      step s (worker_moves i re)
      = Some (worker_does i
                (a_fetch_add (wrap64 (k_active - k_thieve))
                             (dual_count (m_atomics s))), s') /\
      A_of s' = A_of s + 1 /\ T_of s' = T_of s - 1 /\
      m_workers s' !! i
      = Some (in_round_trip h (if T_of s =? 1 then rt_notify else rt_execute))) /\
  (forall re e1 e2 e3,
      run ((re, m_atomics s) :: (if T_of s =? 1 then [e1; e2; e3] else [e2; e3]))
          (in_round_trip h rt_promote)
      = (a_fetch_add (wrap64 (k_active - k_thieve)) (dual_count (m_atomics s))
           :: (if T_of s =? 1 then [a_notify_one] else [])
           ++ [a_resume (resumptions h);
               a_fetch_sub (wrap64 (k_active - k_thieve)) (dual_count (snd e3))],
         continue_as_thief)).
Proof.
  intros Hn Hr Hi. pose proof (reachable_registered n Hn s Hr) as Hreg.
  assert (Hlt : (i < length (m_workers s))%nat) by (eapply lookup_lt_Some; eauto).
  split.
  - intros re. eexists. split; [cbn; rewrite Hi; reflexivity|].
    destruct (step_lanes n Hn s i re _ _ _ _ Hreg Hi eq_refl)
      as (HT & HA & _).
    cbn [is_thief is_active is_unregistered negb andb bz] in *.
    split; [|split].
    + etransitivity; [exact HA|].
      destruct (Z.land _ _ =? 1); cbn [is_active bz]; lia.
    + etransitivity; [exact HT|].
      destruct (Z.land _ _ =? 1); cbn [is_thief is_active is_unregistered negb andb bz]; lia.
    + cbn [m_workers]. rewrite list_lookup_insert_eq by exact Hlt. reflexivity.
  - intros re e1 e2 e3. unfold T_of, thieves.
    destruct e1 as [re1 r1], e2 as [re2 r2], e3 as [re3 r3].
    cbn [run work thief_round_trip fetch_add fetch_sub snd].
    destruct (Z.land (dual_count (m_atomics s)) k_thieve_mask =? 1); reflexivity.
Qed.

(** The theorem at the promotion of the example execution, where worker 0
    is the last thief: its round trip contains the [notify_one]. *)
Lemma last_thief_promotion_notifies_one_witness :
  run [(quiet, m_atomics before_promotion); (quiet, m_atomics after_promotion);
       (quiet, m_atomics after_promotion); (quiet, m_atomics after_promotion)]
      (in_round_trip (intruded_h [7%nat]) rt_promote)
  = ([a_fetch_add k_promote (pack 0 1); a_notify_one; a_resume [7%nat];
      a_fetch_sub k_promote (pack 1 0)], continue_as_thief).
Proof.
  apply (proj2 (last_thief_promotion_notifies_one 2 before_promotion 0
                  (intruded_h [7%nat]) ltac:(simpl; lia)
                  before_promotion_reachable eq_refl)
           quiet (quiet, m_atomics after_promotion)
           (quiet, m_atomics after_promotion)
           (quiet, m_atomics after_promotion)).
Defined.

(** Once the stop flag is set, a worker on the stop path performs nothing
    but what is left of that path, whatever the rest of the pool does. *)
Lemma exit_path_exec i ms : forall s es s' p acts,
  m_workers s !! i = Some p -> exit_actions p = Some acts ->
  stop (m_atomics s) = true ->
  exec ms s = Some (es, s') ->
  actions_of i es `prefix_of` acts.
Proof.
  induction ms as [|m ms IH]; intros s es s' p acts Hi Hp Hstop Hex; cbn in Hex.
  - injection Hex as <- <-. apply prefix_nil.
  - destruct (step s m) as [[e s1]|] eqn:Hstep; [|discriminate].
    destruct (exec ms s1) as [[es1 s2]|] eqn:Hrest; [|discriminate].
    injection Hex as <- <-.
    destruct m as [j re|]; cbn in Hstep.
    + destruct (m_workers s !! j) as [pj|] eqn:Hj; [|discriminate].
      destruct (work re pj (m_atomics s)) as [[[a pj'] r']|] eqn:Hw; [|discriminate].
      injection Hstep as <- <-.
      assert (Hstop' : stop r' = true)
        by (rewrite (work_stop _ _ _ _ _ _ Hw); exact Hstop).
      assert (Hlt : (j < length (m_workers s))%nat) by (eapply lookup_lt_Some; eauto).
      destruct (decide (i = j)) as [<- | Hne].
      * rewrite Hi in Hj. injection Hj as <-.
        rewrite actions_of_cons_same.
        destruct p; try discriminate Hp; cbn in Hw, Hp;
          rewrite ?Hstop in Hw; try discriminate Hw;
          injection Hw as <- <- <-; injection Hp as <-.
        -- apply prefix_cons.
           refine (IH _ _ _ cancel_then_return _ _ eq_refl _ Hrest); cbn;
             [apply list_lookup_insert_eq; exact Hlt | exact Hstop].
        -- apply prefix_cons.
           refine (IH _ _ _ returned _ _ eq_refl _ Hrest); cbn;
             [apply list_lookup_insert_eq; exact Hlt | exact Hstop].
      * rewrite actions_of_cons_other by exact Hne.
        refine (IH _ _ _ p _ _ Hp _ Hrest); cbn; [|exact Hstop'].
        rewrite list_lookup_insert_ne by congruence. exact Hi.
    + injection Hstep as <- <-.
      refine (IH _ _ _ p _ _ Hp _ Hrest); cbn; [exact Hi | reflexivity].
Qed.

(** A worker on the stop path stays on it, whatever the rest of the pool
    does. *)
Lemma exit_path_stays i ms : forall s es s' p,
  m_workers s !! i = Some p -> is_Some (exit_actions p) ->
  stop (m_atomics s) = true ->
  exec ms s = Some (es, s') ->
  exists p', m_workers s' !! i = Some p' /\ is_Some (exit_actions p').
Proof.
  induction ms as [|m ms IH]; intros s es s' p Hi Hp Hstop Hex; cbn in Hex.
  - injection Hex as <- <-. eauto.
  - destruct (step s m) as [[e s1]|] eqn:Hstep; [|discriminate].
    destruct (exec ms s1) as [[es1 s2]|] eqn:Hrest; [|discriminate].
    injection Hex as <- <-.
    destruct m as [j re|]; cbn in Hstep.
    + destruct (m_workers s !! j) as [pj|] eqn:Hj; [|discriminate].
      destruct (work re pj (m_atomics s)) as [[[a pj'] r']|] eqn:Hw; [|discriminate].
      injection Hstep as <- <-.
      assert (Hstop' : stop r' = true)
        by (rewrite (work_stop _ _ _ _ _ _ Hw); exact Hstop).
      assert (Hlt : (j < length (m_workers s))%nat) by (eapply lookup_lt_Some; eauto).
      destruct (decide (i = j)) as [<- | Hne].
      * rewrite Hi in Hj. injection Hj as <-.
        assert (Hp' : is_Some (exit_actions pj')).
        { destruct Hp as [acts Hp].
          destruct p; try discriminate Hp; cbn in Hw;
            rewrite ?Hstop in Hw; try discriminate Hw;
            injection Hw as <- <- <-; cbn; eauto. }
        refine (IH _ _ _ pj' _ Hp' _ Hrest); cbn;
          [apply list_lookup_insert_eq; exact Hlt | exact Hstop'].
      * refine (IH _ _ _ p _ Hp _ Hrest); cbn; [|exact Hstop'].
        rewrite list_lookup_insert_ne by congruence. exact Hi.
    + injection Hstep as <- <-.
      refine (IH _ _ _ p _ Hp _ Hrest); cbn; [exact Hi | reflexivity].
Qed.

(** In an execution in which only worker [i], on the stop path, and the
    stop request move, the counter keeps its value. *)
Lemma exit_path_counter i ms : forall s es s' p,
  m_workers s !! i = Some p -> is_Some (exit_actions p) ->
  stop (m_atomics s) = true ->
  Forall (fun m => m = request_stop \/ exists re, m = worker_moves i re) ms ->
  exec ms s = Some (es, s') ->
  dual_count (m_atomics s') = dual_count (m_atomics s).
Proof.
  induction ms as [|m ms IH]; intros s es s' p Hi Hp Hstop Hall Hex; cbn in Hex.
  - injection Hex as <- <-. reflexivity.
  - destruct (step s m) as [[e s1]|] eqn:Hstep; [|discriminate].
    destruct (exec ms s1) as [[es1 s2]|] eqn:Hrest; [|discriminate].
    injection Hex as <- <-.
    inversion Hall as [|? ? Hm Hms]; subst.
    destruct Hm as [-> | [re ->]]; cbn in Hstep.
    + injection Hstep as <- <-.
      transitivity (dual_count (m_atomics
                      (mk_pool (mk_atomics (dual_count (m_atomics s)) true)
                               (m_workers s)))); [|reflexivity].
      refine (IH _ _ _ p _ Hp _ Hms Hrest); [exact Hi | reflexivity].
    + rewrite Hi in Hstep.
      destruct (work re p (m_atomics s)) as [[[a p'] r']|] eqn:Hw; [|discriminate].
      injection Hstep as <- <-.
      assert (Hlt : (i < length (m_workers s))%nat) by (eapply lookup_lt_Some; eauto).
      assert (Hkeep : r' = m_atomics s /\ is_Some (exit_actions p')).
      { destruct Hp as [acts Hp].
        destruct p; try discriminate Hp; cbn in Hw;
          rewrite ?Hstop in Hw; try discriminate Hw;
          injection Hw as <- <- <-; cbn; eauto. }
      destruct Hkeep as [-> Hp'].
      transitivity (dual_count (m_atomics
                      (mk_pool (m_atomics s) (<[i:=p']> (m_workers s)))));
        [|reflexivity].
      refine (IH _ _ _ p' _ Hp' _ Hms Hrest); cbn;
        [apply list_lookup_insert_eq; exact Hlt | exact Hstop].
Qed.

(** C6. Ghost thief on shutdown. A worker whose re-check of the submission
    queue finds nothing and that then reads the stop flag as set performs
    [cancel_wait] and returns, whatever the peers do in between; and in every
    execution of the pool from a state where the flag is set and the worker
    is at the test of the flag, the worker's actions are an initial part of
    [stop.test; cancel_wait], none of which writes the dual counter. Each of
    these two steps stores nothing: the shared state after the step is the
    shared state before it, and a worker that has returned takes no step.
    So when only this worker moves the counter keeps its value; and in every
    later state of a pool of [n < 2^32] workers, whatever the peers do, the
    worker is still counted in the thief lane, which is the number of
    workers registered as thieves and at least 1. *)
Theorem stop_path_leaves_the_counter (k : key) :
  (forall re1 r1 re2 r2 re3 r3 env,
      re_try_get_submitted re1 = None -> stop r2 = true ->
      run ((re1, r1) :: (re2, r2) :: (re3, r3) :: env) (recheck k)
      = ([a_try_get_submitted None; a_stop_test true; a_cancel_wait], returned)) /\
  (forall s i ms es s',
      m_workers s !! i = Some (check_stop k) ->
      stop (m_atomics s) = true ->
      exec ms s = Some (es, s') ->
      actions_of i es `prefix_of` [a_stop_test true; a_cancel_wait] /\
      Forall (fun a => writes_counter a = false) (actions_of i es)) /\
  (forall re r,
      stop r = true ->
      work re (check_stop k) r = Some (a_stop_test true, cancel_then_return, r) /\
      work re cancel_then_return r = Some (a_cancel_wait, returned, r) /\
      work re returned r = None) /\
  (forall s i ms es s',
      m_workers s !! i = Some (check_stop k) ->
      stop (m_atomics s) = true ->
      Forall (fun m => m = request_stop \/ exists re, m = worker_moves i re) ms ->
      exec ms s = Some (es, s') ->
      dual_count (m_atomics s') = dual_count (m_atomics s)) /\
  (forall n s i ms es s',
      Z.of_nat n < 2 ^ 32 -> reachable n s ->
      m_workers s !! i = Some (check_stop k) ->
      stop (m_atomics s) = true ->
      exec ms s = Some (es, s') ->
      exists p',
        m_workers s' !! i = Some p' /\
        is_Some (exit_actions p') /\ is_thief p' = true /\
        T_of s' = Z.of_nat (count is_thief (m_workers s')) /\
        1 <= T_of s').
Proof.
  split; [|split; [|split; [|split]]].
  - intros re1 r1 re2 r2 re3 r3 env Hnone Hstop.
    cbn [run work]. rewrite Hnone. cbn [run work]. rewrite Hstop.
    cbn [run work]. destruct env as [|[re4 r4] env]; reflexivity.
  - intros s i ms es s' Hi Hstop Hex.
    pose proof (exit_path_exec i ms s es s' _ _ Hi eq_refl Hstop Hex) as Hpre.
    split; [exact Hpre|].
    destruct Hpre as [rest Hrest].
    assert (Hall : Forall (fun a => writes_counter a = false)
                     [a_stop_test true; a_cancel_wait])
      by (repeat constructor).
    rewrite Hrest in Hall. apply Forall_app in Hall. tauto.
  - intros re r Hstop. cbn [work]. rewrite Hstop. auto.
  - intros s i ms es s' Hi Hstop Hall Hex.
    exact (exit_path_counter i ms s es s' _ Hi (mk_is_Some _ _ eq_refl)
             Hstop Hall Hex).
  - intros n s i ms es s' Hn Hr Hi Hstop Hex.
    destruct (exit_path_stays i ms s es s' _ Hi (mk_is_Some _ _ eq_refl)
                Hstop Hex) as (p' & Hi' & Hp').
    pose proof (exec_reachable n ms s es s' Hr Hex) as Hr'.
    pose proof (reachable_registered n Hn s' Hr') as Hreg.
    destruct (registered_lanes n Hn s' Hreg) as (_ & HT & _).
    pose proof (count_lookup_le is_thief _ _ _ Hi') as Hle.
    assert (Hth : is_thief p' = true).
    { destruct Hp' as [acts Hp']. destruct p'; try discriminate Hp'; reflexivity. }
    rewrite Hth in Hle. cbn [bz] in Hle.
    exists p'. repeat split; try assumption. lia.
Qed.

(** The theorem on the execution in which the lone worker reads the flag
    and returns: its two actions, and the counter, which still holds one
    thief after the worker has returned. *)
Lemma stop_path_leaves_the_counter_witness :
  (actions_of 0 [worker_does 0 (a_stop_test true); worker_does 0 a_cancel_wait]
     `prefix_of` [a_stop_test true; a_cancel_wait] /\
   Forall (fun a => writes_counter a = false)
     (actions_of 0 [worker_does 0 (a_stop_test true); worker_does 0 a_cancel_wait])) /\
  dual_count (m_atomics lone_worker_returned)
  = dual_count (m_atomics stop_requested) /\
  (exists p',
      m_workers lone_worker_returned !! 0%nat = Some p' /\
      is_Some (exit_actions p') /\ is_thief p' = true /\
      T_of lone_worker_returned
      = Z.of_nat (count is_thief (m_workers lone_worker_returned)) /\
      1 <= T_of lone_worker_returned).
Proof.
  destruct (stop_path_leaves_the_counter 0%nat) as (_ & Hacts & _ & Hcount & Hghost).
  split; [|split].
  - exact (Hacts stop_requested 0%nat lone_worker_stops _ _
             eq_refl eq_refl lone_worker_stops_exec).
  - refine (Hcount stop_requested 0%nat lone_worker_stops _ _
              eq_refl eq_refl _ lone_worker_stops_exec).
    unfold lone_worker_stops.
    apply Forall_cons_2; [right; eexists; reflexivity|].
    apply Forall_cons_2; [right; eexists; reflexivity|].
    apply Forall_nil_2.
  - refine (Hghost 1%nat stop_requested 0%nat lone_worker_stops _ _
              _ stop_requested_reachable eq_refl eq_refl lone_worker_stops_exec).
    simpl. lia.
Defined.

(** *** The facade *)

Lemma push_contexts_seq todo : forall i contexts,
  push_contexts todo i contexts = contexts ++ seq i todo.
Proof.
  induction todo as [|todo IH]; intros i contexts; cbn.
  - rewrite app_nil_r. reflexivity.
  - rewrite IH, <- app_assoc. reflexivity.
Qed.

Lemma lazy_pool_new_contexts n :
  m_contexts (lazy_pool_new n) = seq 0 (Z.to_nat n).
Proof. unfold lazy_pool_new. cbn. apply push_contexts_seq. Qed.

Lemma lazy_pool_new_dist n :
  1 <= n < 2 ^ 64 -> m_dist (lazy_pool_new n) = mk_dist 0 (n - 1).
Proof.
  intros Hn. unfold lazy_pool_new. cbn. f_equal.
  apply wrap64_small. unfold is_uint64. lia.
Qed.

Lemma lazy_pool_new_lookup n drawn :
  1 <= n < 2 ^ 64 -> in_support (m_dist (lazy_pool_new n)) drawn ->
  0 <= drawn <= n - 1 /\
  m_contexts (lazy_pool_new n) !! Z.to_nat drawn = Some (Z.to_nat drawn).
Proof.
  intros Hn Hd. rewrite lazy_pool_new_dist in Hd by exact Hn.
  unfold in_support in Hd. cbn in Hd. split; [exact Hd|].
  rewrite lazy_pool_new_contexts. apply lookup_seq_lt. lia.
Qed.

Lemma lazy_pool_new_probability n drawn :
  1 <= n < 2 ^ 64 -> 0 <= drawn <= n - 1 ->
  probability (m_dist (lazy_pool_new n)) drawn = Qmake 1 (Z.to_pos n).
Proof.
  intros Hn Hd. rewrite lazy_pool_new_dist by exact Hn.
  unfold probability. cbn [dist_a dist_b].
  destruct (Z.leb_spec 0 drawn); [|lia].
  destruct (Z.leb_spec drawn (n - 1)); [|lia].
  cbn [andb]. do 2 f_equal. lia.
Qed.

(** C9. Noisy submission. In a pool built for [n >= 1] workers, the
    distribution is the uniform one on [0, n-1], so that each index it can
    draw has probability [1/n]; [schedule] with the index drawn calls
    [submit] of the context created at that index; and [submit] first
    enqueues the batch into that context's submission queue and then calls
    [notify_all]. *)
Theorem schedule_enqueues_then_notifies_all (n drawn : Z) (node : handle) :
  1 <= n < 2 ^ 64 -> in_support (m_dist (lazy_pool_new n)) drawn ->
  m_dist (lazy_pool_new n) = mk_dist 0 (n - 1) /\
  probability (m_dist (lazy_pool_new n)) drawn = Qmake 1 (Z.to_pos n) /\
  m_contexts (lazy_pool_new n) !! Z.to_nat drawn = Some (Z.to_nat drawn) /\
  schedule (lazy_pool_new n) drawn node = Some (submit (Z.to_nat drawn) node) /\
  submit (Z.to_nat drawn) node
  = [a_submit_to_queue (Z.to_nat drawn) node; a_notify_all].
Proof.
  intros Hn Hd. destruct (lazy_pool_new_lookup n drawn Hn Hd) as [Hr Hl].
  split; [apply lazy_pool_new_dist; exact Hn|].
  split; [apply lazy_pool_new_probability; assumption|].
  split; [exact Hl|]. split; [|reflexivity].
  unfold schedule. rewrite Hl. reflexivity.
Qed.

(** The theorem in a pool of four workers when the index drawn is 2. *)
Lemma schedule_enqueues_then_notifies_all_witness :
  schedule (lazy_pool_new 4) 2 (intruded_h [7%nat])
  = Some [a_submit_to_queue 2 (intruded_h [7%nat]); a_notify_all].
Proof.
  destruct (schedule_enqueues_then_notifies_all 4 2 (intruded_h [7%nat]))
    as (_ & _ & _ & Hs & _).
  - lia.
  - vm_compute. split; discriminate.
  - exact Hs.
Defined.

(** C10. The worker count must be at least 1. For [n = 0] the upper bound
    of the distribution is [2^64 - 1], the vector of contexts is empty, and
    [schedule] indexes it out of range whatever index is drawn. For every
    [n >= 1] (a [std::size_t]) every index the distribution can draw lies in
    [0, n-1] and is within the vector. *)
Theorem pool_needs_at_least_one_worker :
  (dist_b (m_dist (lazy_pool_new 0)) = 2 ^ 64 - 1 /\
   m_contexts (lazy_pool_new 0) = [] /\
   forall drawn node, schedule (lazy_pool_new 0) drawn node = None) /\
  (forall n drawn,
      1 <= n < 2 ^ 64 -> in_support (m_dist (lazy_pool_new n)) drawn ->
      0 <= drawn <= n - 1 /\
      (Z.to_nat drawn < length (m_contexts (lazy_pool_new n)))%nat /\
      forall node, is_Some (schedule (lazy_pool_new n) drawn node)).
Proof.
  split.
  - split; [reflexivity|]. split; [reflexivity|].
    intros drawn node. unfold schedule. cbn. reflexivity.
  - intros n drawn Hn Hd.
    destruct (lazy_pool_new_lookup n drawn Hn Hd) as [Hr Hl].
    split; [exact Hr|]. split.
    + eapply lookup_lt_Some. exact Hl.
    + intros node. unfold schedule. rewrite Hl. eauto.
Qed.

(** The theorem in a pool of four workers when the index drawn is 3. *)
Lemma pool_needs_at_least_one_worker_witness :
  0 <= 3 <= 4 - 1 /\
  (Z.to_nat 3 < length (m_contexts (lazy_pool_new 4)))%nat /\
  forall node, is_Some (schedule (lazy_pool_new 4) 3 node).
Proof.
  apply (proj2 pool_needs_at_least_one_worker 4 3).
  - lia.
  - vm_compute. split; discriminate.
Defined.

End PoolFacts.

(** ** The thread-locals over sequences of calls *)

Module TlsApiFacts.
Import Tls TlsFacts TlsApi.
Local Open Scope Z_scope.

Lemma replay_app log1 : forall alive log2,
  replay alive (log1 ++ log2)
  = match replay alive log1 with
    | Some alive' => replay alive' log2
    | None => None
    end.
Proof.
  induction log1 as [|c log1 IH]; intros alive log2; cbn; [reflexivity|].
  destruct (replay_call alive c); [apply IH | reflexivity].
Qed.

Lemma sound_fresh addr : sound (fresh addr).
Proof. repeat split. Qed.

Lemma sound_do_call st c :
  sound st -> fibre_constructor_succeeds c -> sound (do_call st c).
Proof.
  intros [(Hcf & Hf & Hc) Hlog] Hok.
  destruct st as [hf tf hc tc data log]. cbn in *. subst hc tf.
  destruct c as [notify cf ff | worker]; cbn in Hok |- *.
  - subst ff. run_tls.
    destruct hf; cbn; [repeat split; assumption|].
    destruct cf as [e|]; cbn; [repeat split; assumption|].
    split; [repeat split|]. cbn [calls has_context has_fibre].
    rewrite <- app_assoc, replay_app, Hlog. reflexivity.
  - run_tls.
    destruct (worker =? data); cbn; [|repeat split; assumption].
    destruct hf; cbn; [|repeat split; assumption].
    split; [repeat split|]. cbn [calls has_context has_fibre].
    rewrite <- app_assoc, replay_app, Hlog. reflexivity.
Qed.

Lemma sound_do_calls cs : forall st,
  sound st -> Forall fibre_constructor_succeeds cs -> sound (do_calls cs st).
Proof.
  induction cs as [|c cs IH]; intros st Hs Hall; [exact Hs|].
  inversion Hall as [|? ? Hc Hcs]; subst.
  cbn. apply IH; [apply sound_do_call; assumption | assumption].
Qed.

(** X1. At most one context and one fibre per thread. After any sequence
    of calls of [worker_init] and [finalize] on a fresh thread, with any
    arguments and with a context constructor that may throw, as long as no
    fibre constructor throws: the two guards are equal and say exactly what
    is alive, and no call has constructed into a storage that held a live
    object or destroyed one that held none. *)
Theorem guards_enforce_one_context_and_fibre (addr : Z) (cs : list api_call) :
  Forall fibre_constructor_succeeds cs ->
  guards_track_lifetimes (do_calls cs (fresh addr)) /\
  replay (false, false) (calls (do_calls cs (fresh addr)))
  = Some (has_context (do_calls cs (fresh addr)),
          has_fibre (do_calls cs (fresh addr))).
Proof. intros Hall. apply sound_do_calls; [apply sound_fresh | exact Hall]. Qed.

(** The theorem on a thread that is finalised before any initialisation,
    initialised twice (the first context constructor throws, then once
    more after success), finalised with a foreign pointer and finalised. *)
Lemma guards_enforce_one_context_and_fibre_witness :
  replay (false, false)
    (calls (do_calls [call_finalize 4096;
                      call_worker_init 1 (Some (ctor_failure 3)) None;
                      call_worker_init 2 None None;
                      call_worker_init 3 None None;
                      call_finalize 4100;
                      call_finalize 4096] (fresh 4096)))
  = Some (false, false).
Proof.
  refine (proj2 (guards_enforce_one_context_and_fibre 4096 _ _)).
  repeat constructor.
Defined.

(** X2. Initialisation and finalisation compose. On a thread whose guards
    are not both set, [worker_init] with constructors that succeed returns
    the address of the context storage, which is what [context()] then
    returns; [finalize] with that pointer then returns normally, clears
    both guards, leaves nothing alive and makes the assertion of
    [context()] fail. The four lifetime calls are, in this order: construct
    context, construct fibre, destroy context, destroy fibre. After that,
    [worker_init] succeeds again. *)
Theorem init_then_finalize (st : tls) (notify notify' : nat) :
  has_context st && has_fibre st = false ->
  exists st1 st2 st3,
    worker_init notify None None st = (Returns (thread_context_data st), st1) /\
    context st1 = Some (thread_context_data st) /\
    finalize (thread_context_data st) st1 = (Returns tt, st2) /\
    has_context st2 = false /\ has_fibre st2 = false /\
    thread_context st2 = None /\ thread_fibre st2 = false /\
    context st2 = None /\
    calls st2
    = calls st ++ [context_construct notify; fibre_construct;
                   context_destroy; fibre_destroy] /\
    worker_init notify' None None st2 = (Returns (thread_context_data st), st3).
Proof.
  intros Hg. destruct st as [hf tf hc tc data log]. cbn in Hg.
  do 3 eexists.
  split; [run_tls; rewrite Hg; reflexivity|].
  split; [reflexivity|].
  split; [run_tls; rewrite Z.eqb_refl; reflexivity|].
  do 5 (split; [reflexivity|]).
  split; [cbn; rewrite <- !app_assoc; reflexivity|].
  reflexivity.
Qed.

(** The theorem on a fresh thread. *)
Lemma init_then_finalize_witness :
  exists st1 st2 st3,
    worker_init 7 None None (fresh 4096) = (Returns 4096, st1) /\
    context st1 = Some 4096 /\
    finalize 4096 st1 = (Returns tt, st2) /\
    has_context st2 = false /\ has_fibre st2 = false /\
    thread_context st2 = None /\ thread_fibre st2 = false /\
    context st2 = None /\
    calls st2
    = [] ++ [context_construct 7; fibre_construct;
             context_destroy; fibre_destroy] /\
    worker_init 8 None None st2 = (Returns 4096, st3).
Proof. exact (init_then_finalize (fresh 4096) 7 8 eq_refl). Defined.

End TlsApiFacts.

(** ** A worker's sequence of actions *)

Module WorkerTracesFacts.
Import Lanes LanesFacts Worker WorkerFacts WorkerTraces.
Local Open Scope Z_scope.

Lemma run_cons re r env p :
  run ((re, r) :: env) p
  = match work re p r with
    | None => ([], p)
    | Some (a, p', _) => (a :: fst (run env p'), snd (run env p'))
    end.
Proof.
  cbn. destruct (work re p r) as [[[a p'] r']|]; [|reflexivity].
  destruct (run env p'); reflexivity.
Qed.

(** *** The handles a worker takes *)

Lemma work_conserves re p r a p' r' :
  work re p r = Some (a, p', r') ->
  map resumptions (holds p ++ taken [a])
  = resumed [a] ++ map resumptions (holds p').
Proof. intros H. work_cases H; reflexivity. Qed.

Lemma taken_cons a acts : taken (a :: acts) = taken [a] ++ taken acts.
Proof. unfold taken. cbn. destruct a as [| | | |[]|[]|[]| | | | | |]; reflexivity. Qed.

Lemma resumed_cons a acts : resumed (a :: acts) = resumed [a] ++ resumed acts.
Proof. unfold resumed. cbn. destruct a; reflexivity. Qed.

(** X3. No handle is lost or run twice by the worker loop. Over any run of
    a worker, from any program point and whatever peers and collaborators
    do: the resumptions due for the handle it held at the start and for the
    handles it took from its submission queue or stole, in the order taken,
    are exactly the resumptions it performed, in the order performed,
    followed by those due for the handle it still holds at the end. *)
Theorem taken_handles_are_resumed_once
    (env : list (replies * remote_atomics)) (p : pc) :
  map resumptions (holds p ++ taken (fst (run env p)))
  = resumed (fst (run env p)) ++ map resumptions (holds (snd (run env p))).
Proof.
  revert p. induction env as [|[re r] env IH]; intros p.
  - cbn. rewrite app_nil_r. reflexivity.
  - rewrite run_cons.
    destruct (work re p r) as [[[a p'] r']|] eqn:Hw;
      [|cbn; rewrite app_nil_r; reflexivity].
    cbn [fst snd]. rewrite taken_cons, resumed_cons.
    rewrite app_assoc, map_app, (work_conserves _ _ _ _ _ _ Hw).
    rewrite <- app_assoc, <- map_app, IH, app_assoc. reflexivity.
Qed.

(** *** The notifier *)

Lemma work_notifier re p r a p' r' pending :
  work re p r = Some (a, p', r') -> key_at p pending ->
  exists pending', notifier_step pending a = Some pending' /\ key_at p' pending'.
Proof.
  intros H Hk. work_cases H; cbn in Hk |- *;
    try match type of Hk with is_Some _ => destruct Hk as [? Hk] end;
    try subst pending; rewrite ?Nat.eqb_refl; eauto.
Qed.

Lemma run_notifier env : forall p pending,
  key_at p pending -> notifier_protocol pending (fst (run env p)) = true.
Proof.
  induction env as [|[re r] env IH]; intros p pending Hk; [reflexivity|].
  rewrite run_cons.
  destruct (work re p r) as [[[a p'] r']|] eqn:Hw; [|reflexivity].
  destruct (work_notifier _ _ _ _ _ _ _ Hw Hk) as (pending' & Hs & Hk').
  cbn. rewrite Hs. apply IH. exact Hk'.
Qed.

(** X4. The worker keeps to the event-count pattern. Over any run of a
    worker from the top of its loop, whatever peers and collaborators do:
    [cancel_wait] and [wait] are only called while a key obtained from
    [prepare_wait] is pending, [wait] is called with that key, and no key
    is cancelled or waited on twice. *)
Theorem worker_keeps_to_the_notifier_protocol
    (env : list (replies * remote_atomics)) :
  notifier_protocol None (fst (run env wake_up)) = true.
Proof. apply run_notifier. exact I. Qed.

Lemma keyless_run env : forall p,
  keyless p = true ->
  Forall (fun a => consumes_key a = false) (until_prepare (fst (run env p))).
Proof.
  induction env as [|[re r] env IH]; intros p Hp; [constructor|].
  rewrite run_cons.
  destruct (work re p r) as [[[a p'] r']|] eqn:Hw; [|constructor].
  cbn [fst].
  work_cases Hw; try discriminate Hp; cbn [until_prepare];
    first [constructor; [reflexivity | apply IH; reflexivity] | constructor].
Qed.

(** X5. An aborted sleep leaves its key behind. When the park decrement
    reads one thief beside an active worker, the worker goes back to the
    top of its loop, and until its next [prepare_wait] it calls neither
    [cancel_wait] nor [wait]: the key obtained from the [prepare_wait]
    before the decrement is never cancelled and never waited on. *)
Theorem aborted_sleep_leaves_its_key
    (k : key) (re : replies) (r : remote_atomics)
    (env : list (replies * remote_atomics)) :
  is_uint64 (dual_count r) ->
  thieves (dual_count r) = 1 -> actives (dual_count r) <> 0 ->
  work re (park k) r
  = Some (a_fetch_sub k_thieve (dual_count r), wake_up,
          mk_atomics (wrap64 (dual_count r - k_thieve)) (stop r)) /\
  Forall (fun a => consumes_key a = false)
         (until_prepare (fst (run ((re, r) :: env) (park k)))).
Proof.
  intros Hu Ht Ha.
  assert (Hw : work re (park k) r
               = Some (a_fetch_sub k_thieve (dual_count r), wake_up,
                       mk_atomics (wrap64 (dual_count r - k_thieve)) (stop r))).
  { cbn [work fetch_sub].
    rewrite (proj2 (park_test _ Hu) (conj Ht Ha)). reflexivity. }
  split; [exact Hw|].
  rewrite run_cons, Hw. cbn [fst until_prepare].
  constructor; [reflexivity | apply keyless_run; reflexivity].
Qed.

(** The theorem for a worker that aborts its sleep, then finds nothing,
    and prepares to wait again. *)
Lemma aborted_sleep_leaves_its_key_witness :
  Forall (fun a => consumes_key a = false)
    (until_prepare
       (fst (run [(mk_replies None None 1%nat false, mk_atomics (pack 1 1) false);
                  (mk_replies None None 1%nat false, mk_atomics (pack 1 0) false);
                  (mk_replies None None 1%nat false, mk_atomics (pack 1 1) false);
                  (mk_replies None None 1%nat false, mk_atomics (pack 1 1) false);
                  (mk_replies None None 1%nat false, mk_atomics (pack 1 1) false)]
                 (park 0%nat)))).
Proof.
  refine (proj2 (aborted_sleep_leaves_its_key 0%nat
                   (mk_replies None None 1%nat false)
                   (mk_atomics (pack 1 1) false) _ _ _ _)).
  - unfold is_uint64, pack. simpl. lia.
  - reflexivity.
  - vm_compute. discriminate.
Defined.

(** *** Shutdown *)

Lemma calm_step re r p :
  calm (re, r) -> p <> returned ->
  exists a p' r',
    work re p r = Some (a, p', r') /\
    (steps_to_return p' < steps_to_return p)%nat.
Proof.
  intros (Hs & Ht & Hw & Hstop) Hp. cbn [fst snd] in *.
  destruct p as [| | |h []| |k|h|k| |k|k|k|]; try congruence;
    cbn [work thief_round_trip fetch_add fetch_sub];
    rewrite ?Hs, ?Ht, ?Hw, ?Hstop;
    repeat match goal with
      | |- context [if ?b then _ else _] => destruct b
      end;
    do 3 eexists; (split; [reflexivity | cbn; lia]).
Qed.

(** X6. A worker leaves when asked to. Once the stop flag is set, the
    queue and the deques stay empty and the notifier lets go of a waiting
    worker, a worker at any program point returns from its main loop within
    [steps_to_return] of its own steps (at most 11), whatever the peers do
    to the counter in between. *)
Theorem worker_returns_after_stop
    (p : pc) (env : list (replies * remote_atomics)) :
  Forall calm env -> (steps_to_return p <= length env)%nat ->
  snd (run env p) = returned /\ (steps_to_return p <= 11)%nat.
Proof.
  intros Hcalm Hlen. split.
  2: { destruct p as [| | |h []| | | | | | | | |]; cbn; lia. }
  revert p Hlen. induction Hcalm as [|[re r] env Hc _ IH]; intros p Hlen.
  - cbn in Hlen. destruct p as [| | |h []| | | | | | | | |]; cbn in Hlen; try lia.
    reflexivity.
  - rewrite run_cons.
    assert (Hdec : p = returned \/ p <> returned)
      by (destruct p; first [left; reflexivity | right; discriminate]).
    destruct Hdec as [-> | Hp]; [reflexivity|].
    destruct (calm_step re r p Hc Hp) as (a & p' & r' & Hw & Hlt).
    rewrite Hw. cbn [snd]. apply IH. cbn [length] in Hlen. lia.
Qed.

(** The theorem for a worker that holds a batch found at the re-check when
    the stop is requested: it runs the batch and returns. *)
Lemma worker_returns_after_stop_witness :
  snd (run (replicate 11 (mk_replies None None 0%nat true, mk_atomics (pack 1 1) true))
           (cancel_then_run (intruded_h [7%nat])))
  = returned.
Proof.
  refine (proj1 (worker_returns_after_stop
                   (cancel_then_run (intruded_h [7%nat]))
                   (replicate 11 (mk_replies None None 0%nat true,
                                  mk_atomics (pack 1 1) true)) _ _)).
  - apply Forall_replicate. repeat split.
  - cbn. lia.
Defined.

(** *** Going to sleep *)

Lemma idle_step re r p :
  idle (re, r) -> is_leaving p = false -> (forall k, p <> in_wait k) ->
  exists a p' r',
    work re p r = Some (a, p', r') /\ is_leaving p' = false /\
    (steps_to_wait p' < steps_to_wait p)%nat.
Proof.
  intros (Hs & Ht & Hw & Hstop & Hu & Hno) Hl Hnw. cbn [fst snd] in *.
  assert (Htest : (Z.land (dual_count r) k_thieve_mask =? 1)
                  && negb (Z.land (dual_count r) k_active_mask =? 0) = false).
  { destruct (_ && _) eqn:Hb; [|reflexivity].
    exfalso. apply Hno, (park_test _ Hu). exact Hb. }
  destruct p as [| | |h []| |k|h|k| |k|k|k|]; try discriminate Hl;
    try (exfalso; apply (Hnw k); reflexivity);
    cbn [work thief_round_trip fetch_add fetch_sub];
    rewrite ?Hs, ?Ht, ?Hstop, ?Htest;
    repeat match goal with
      | |- context [if ?b then _ else _] => destruct b
      end;
    do 3 eexists; (split; [reflexivity | split; [reflexivity | cbn; lia]]).
Qed.

(** X10. A worker with nothing to do goes to sleep. While the queue and the
    deques are empty, no stop is requested and the counter does not show
    this worker's decrement as that of the last thief beside an active
    worker, a worker that is not on its way out is blocked in [wait] after
    at most [steps_to_wait] of its own steps (at most 12), and stays there
    as long as the notifier holds it. *)
Theorem idle_worker_goes_to_sleep
    (p : pc) (env : list (replies * remote_atomics)) :
  Forall idle env -> is_leaving p = false ->
  (steps_to_wait p <= length env)%nat ->
  (exists k, snd (run env p) = in_wait k) /\ (steps_to_wait p <= 12)%nat.
Proof.
  intros Hidle Hl Hlen. split.
  2: { destruct p as [| | |h []| | | | | | | | |]; cbn; lia. }
  revert p Hl Hlen. induction Hidle as [|[re r] env Hi _ IH]; intros p Hl Hlen.
  - cbn in Hlen.
    destruct p as [| | |h []| | | | | | | | |]; cbn in Hlen; try lia;
      try discriminate Hl.
    eexists. reflexivity.
  - rewrite run_cons.
    assert (Hdec : (exists k, p = in_wait k) \/ (forall k, p <> in_wait k))
      by (destruct p; first [left; eexists; reflexivity | right; discriminate]).
    destruct Hdec as [[k ->] | Hnw].
    + destruct Hi as (_ & _ & Hw & _). cbn [fst] in Hw.
      cbn [work]. rewrite Hw. eexists. reflexivity.
    + destruct (idle_step re r p Hi Hl Hnw) as (a & p' & r' & Hw & Hl' & Hlt).
      rewrite Hw. cbn [snd]. apply IH; [exact Hl'|]. cbn [length] in Hlen. lia.
Qed.

(** The theorem for a worker that has just finished a round trip in a pool
    where another thief is still searching. *)
Lemma idle_worker_goes_to_sleep_witness :
  exists k,
    snd (run (replicate 8 (mk_replies None None 3%nat false,
                           mk_atomics (pack 1 2) false))
             (in_round_trip (task_h 1) rt_demote))
    = in_wait k.
Proof.
  refine (proj1 (idle_worker_goes_to_sleep
                   (in_round_trip (task_h 1) rt_demote)
                   (replicate 8 (mk_replies None None 3%nat false,
                                 mk_atomics (pack 1 2) false)) _ _ _)).
  - apply Forall_replicate. repeat split.
    + vm_compute. discriminate.
    + intros [H _]. vm_compute in H. discriminate H.
  - reflexivity.
  - cbn. lia.
Defined.

End WorkerTracesFacts.

(** ** The pool during shutdown *)

Module PoolShutdownFacts.
Import Lanes Worker WorkerFacts WorkerTraces Pool PoolFacts Executions.
Local Open Scope Z_scope.

(** A worker gets on its way out only by reading the stop flag as set. *)
Lemma work_leaving re p r a p' r' :
  work re p r = Some (a, p', r') ->
  is_leaving p' = true -> is_leaving p = true \/ stop r = true.
Proof.
  intros H Hl. work_cases H; cbn in Hl |- *;
    first [discriminate Hl | left; reflexivity | right; assumption].
Qed.

Lemma step_stop s m e s' :
  step s m = Some (e, s') ->
  stop (m_atomics s) = true -> stop (m_atomics s') = true.
Proof.
  intros Hstep Hstop. destruct m as [i re|]; cbn in Hstep.
  - destruct (m_workers s !! i) as [p|]; [|discriminate].
    destruct (work re p (m_atomics s)) as [[[a p'] r']|] eqn:Hw; [|discriminate].
    injection Hstep as <- <-. cbn.
    rewrite (work_stop _ _ _ _ _ _ Hw). exact Hstop.
  - injection Hstep as <- <-. reflexivity.
Qed.

(** X7. No worker leaves before a stop is requested. In every reachable
    state of the pool, a worker that has returned from its main loop, or is
    about to after its last [cancel_wait], implies that the stop flag is
    set; and the flag, once set, stays set in every later state. *)
Theorem workers_leave_only_after_stop (n : nat) (s : pool) :
  reachable n s ->
  (forall i p, m_workers s !! i = Some p -> is_leaving p = true ->
               stop (m_atomics s) = true) /\
  (forall ms es s', exec ms s = Some (es, s') ->
                    stop (m_atomics s) = true -> stop (m_atomics s') = true).
Proof.
  intros Hr. split.
  - induction Hr as [|s m e s' _ IH Hstep]; intros i p Hi Hl.
    + unfold start in Hi. cbn in Hi.
      apply lookup_replicate in Hi as [-> _]. discriminate Hl.
    + destruct m as [j re|]; cbn in Hstep.
      * destruct (m_workers s !! j) as [pj|] eqn:Hj; [|discriminate].
        destruct (work re pj (m_atomics s)) as [[[a pj'] r']|] eqn:Hw;
          [|discriminate].
        injection Hstep as <- <-. cbn in Hi |- *.
        rewrite (work_stop _ _ _ _ _ _ Hw).
        destruct (decide (j = i)) as [-> | Hne].
        -- assert (Hlt : (i < length (m_workers s))%nat)
             by (eapply lookup_lt_Some; eauto).
           rewrite list_lookup_insert_eq in Hi by exact Hlt.
           injection Hi as <-.
           destruct (work_leaving _ _ _ _ _ _ Hw Hl) as [Hl' | Hs];
             [exact (IH _ _ Hj Hl') | exact Hs].
        -- rewrite list_lookup_insert_ne in Hi by exact Hne.
           exact (IH _ _ Hi Hl).
      * injection Hstep as <- <-. reflexivity.
  - clear Hr. intros ms. revert s.
    induction ms as [|m ms IH]; intros s es s' Hex Hstop; cbn in Hex.
    + injection Hex as <- <-. exact Hstop.
    + destruct (step s m) as [[e s1]|] eqn:Hstep; [|discriminate].
      destruct (exec ms s1) as [[es1 s2]|] eqn:Hrest; [|discriminate].
      injection Hex as <- <-.
      eapply IH; [exact Hrest|]. eapply step_stop; eauto.
Qed.

(** The theorem in the pool of one worker that has returned. *)
Lemma workers_leave_only_after_stop_witness :
  stop (m_atomics lone_worker_returned) = true.
Proof.
  refine (proj1 (workers_leave_only_after_stop 1 lone_worker_returned _)
            0%nat returned eq_refl eq_refl).
  eapply (exec_reachable 1 lone_worker_stops);
    [exact stop_requested_reachable | exact lone_worker_stops_exec].
Defined.

(** Under a set stop flag a step of a worker uses up what it may still
    wait. *)
Lemma work_waits re p r a p' r' :
  work re p r = Some (a, p', r') -> stop r = true ->
  (length (filter (fun a => is_wait a = true) [a]) + may_still_wait p'
   <= may_still_wait p)%nat.
Proof.
  intros H Hstop. work_cases H; try congruence; vm_compute; lia.
Qed.

Lemma actions_of_cons_stop i es :
  actions_of i (stop_set :: es) = actions_of i es.
Proof. reflexivity. Qed.

Lemma waits_after_stop i ms : forall s es s' p,
  m_workers s !! i = Some p -> stop (m_atomics s) = true ->
  exec ms s = Some (es, s') ->
  (length (filter (fun a => is_wait a = true) (actions_of i es))
   <= may_still_wait p)%nat.
Proof.
  induction ms as [|m ms IH]; intros s es s' p Hi Hstop Hex; cbn in Hex.
  - injection Hex as <- <-. cbn. lia.
  - destruct (step s m) as [[e s1]|] eqn:Hstep; [|discriminate].
    destruct (exec ms s1) as [[es1 s2]|] eqn:Hrest; [|discriminate].
    injection Hex as <- <-.
    pose proof (step_stop _ _ _ _ Hstep Hstop) as Hstop1.
    destruct m as [j re|]; cbn in Hstep.
    + destruct (m_workers s !! j) as [pj|] eqn:Hj; [|discriminate].
      destruct (work re pj (m_atomics s)) as [[[a pj'] r']|] eqn:Hw; [|discriminate].
      injection Hstep as <- <-.
      assert (Hlt : (j < length (m_workers s))%nat) by (eapply lookup_lt_Some; eauto).
      destruct (decide (i = j)) as [<- | Hne].
      * rewrite Hi in Hj. injection Hj as <-.
        rewrite actions_of_cons_same.
        change (a :: actions_of i es1) with ([a] ++ actions_of i es1).
        rewrite filter_app, length_app.
        pose proof (work_waits _ _ _ _ _ _ Hw Hstop) as Hpot.
        assert (Hi' : m_workers (mk_pool r' (<[i:=pj']> (m_workers s))) !! i
                      = Some pj')
          by (cbn; apply list_lookup_insert_eq; exact Hlt).
        pose proof (IH _ _ _ _ Hi' Hstop1 Hrest). lia.
      * rewrite actions_of_cons_other by exact Hne.
        refine (IH _ _ _ p _ Hstop1 Hrest).
        cbn. rewrite list_lookup_insert_ne by congruence. exact Hi.
    + injection Hstep as <- <-. rewrite actions_of_cons_stop.
      refine (IH _ _ _ p _ _ Hrest); [exact Hi | reflexivity].
Qed.

(** X8. Nobody goes to sleep after reading the stop flag. In every
    execution of the pool from a state in which the stop flag is set, a
    worker calls [wait] at most once, and not at all unless it had already
    passed the test of the flag and stood at the park decrement or right
    before the call of [wait]. *)
Theorem at_most_one_wait_after_stop
    (s : pool) (i : nat) (p : pc) (ms : list move) (es : list event) (s' : pool) :
  m_workers s !! i = Some p -> stop (m_atomics s) = true ->
  exec ms s = Some (es, s') ->
  (length (filter (fun a => is_wait a = true) (actions_of i es)) <= 1)%nat /\
  ((forall k, p <> park k) -> (forall k, p <> before_wait k) ->
   filter (fun a => is_wait a = true) (actions_of i es) = []).
Proof.
  intros Hi Hstop Hex.
  pose proof (waits_after_stop i ms s es s' p Hi Hstop Hex) as Hle.
  split.
  - destruct p; cbn in Hle; lia.
  - intros Hpark Hbefore. apply length_zero_iff_nil.
    destruct p as [| | |h q| |k|h|k| |k|k|k|]; cbn in Hle; try lia.
    + exfalso. apply (Hpark k). reflexivity.
    + exfalso. apply (Hbefore k). reflexivity.
Qed.

(** The theorem on the worker that reads the flag and returns. *)
Lemma at_most_one_wait_after_stop_witness :
  filter (fun a => is_wait a = true)
    (actions_of 0 [worker_does 0 (a_stop_test true); worker_does 0 a_cancel_wait])
  = [].
Proof.
  refine (proj2 (at_most_one_wait_after_stop stop_requested 0 (check_stop 0%nat)
                   lone_worker_stops _ _ eq_refl eq_refl lone_worker_stops_exec)
            _ _); discriminate.
Defined.

End PoolShutdownFacts.

(** ** Starting and joining the worker threads *)

Module FacadeFacts.
Import Tls Facade.

Lemma spawned_spawns l : spawned (map ev_spawn l) = l.
Proof. induction l as [|x l IH]; cbn; [reflexivity | f_equal; exact IH]. Qed.

Lemma joined_joins l : joined (map ev_join l) = l.
Proof. induction l as [|x l IH]; cbn; [reflexivity | f_equal; exact IH]. Qed.

Lemma spawned_joins l : spawned (map ev_join l) = [].
Proof. induction l as [|x l IH]; cbn; [reflexivity | exact IH]. Qed.

Lemma joined_spawns l : joined (map ev_spawn l) = [].
Proof. induction l as [|x l IH]; cbn; [reflexivity | exact IH]. Qed.

(** The loop starts the threads of an initial part of [nodes], up to the
    first position at which starting a thread fails. *)
Lemma spawn_result nodes fails : forall st,
  exists k,
    (k <= length nodes)%nat /\
    (forall i, (i < k)%nat -> fails (length (m_workers st) + i)%nat = None) /\
    snd (spawn nodes fails st)
    = mk_threads (stop_flag st) (m_workers st ++ take k nodes)
                 (events st ++ map ev_spawn (take k nodes)) /\
    match fst (spawn nodes fails st) with
    | Returns _ => k = length nodes
    | Throws e =>
        (k < length nodes)%nat /\ fails (length (m_workers st) + k)%nat = Some e
    end.
Proof.
  induction nodes as [|node nodes IH]; intros st.
  - exists 0%nat. cbn. rewrite !app_nil_r. destruct st.
    repeat split; [lia | intros; lia].
  - cbn [spawn]. destruct (fails (length (m_workers st))) as [e|] eqn:Hf.
    + exists 0%nat. cbn. rewrite !app_nil_r, Nat.add_0_r. destruct st.
      repeat split; [lia | intros; lia | lia | exact Hf].
    + destruct (IH (mk_threads (stop_flag st) (m_workers st ++ [node])
                               (events st ++ [ev_spawn node])))
        as (k & Hk & Hnone & Hst & Hout).
      cbn [m_workers events stop_flag] in *.
      rewrite length_app in Hnone, Hout. cbn [length] in Hnone, Hout.
      exists (S k). split; [cbn; lia|]. split.
      * intros i Hi. destruct i as [|i]; [rewrite Nat.add_0_r; exact Hf|].
        replace (length (m_workers st) + S i)%nat
          with (length (m_workers st) + 1 + i)%nat by lia.
        apply Hnone. lia.
      * split; [rewrite Hst; cbn; rewrite <- !app_assoc; reflexivity|].
        destruct (fst (spawn nodes fails _)) as [[]|e].
        -- cbn. lia.
        -- replace (length (m_workers st) + S k)%nat
             with (length (m_workers st) + 1 + k)%nat by lia.
           cbn. split; [lia | apply Hout].
Qed.

(** X9. Every thread that was started is joined. If starting the thread at
    position [k] throws, the constructor has started exactly the threads of
    the [k] nodes before it, sets the stop flag, calls [notify_all], joins
    exactly those threads in the order they were started, and rethrows the
    same error. If no start fails, one thread per node is running, nothing
    is joined and the flag is clear; the destructor then sets the flag,
    calls [notify_all] and joins every thread, in the order they were
    started. *)
Theorem started_threads_are_joined (nodes : list nat) (fails : nat -> option exn) :
  match start_workers nodes fails with
  | (Throws e, st) =>
      exists k,
        (k < length nodes)%nat /\ fails k = Some e /\
        (forall i, (i < k)%nat -> fails i = None) /\
        stop_flag st = true /\ m_workers st = take k nodes /\
        events st
        = map ev_spawn (take k nodes) ++ [ev_stop_set; ev_notify_all]
          ++ map ev_join (take k nodes) /\
        joined (events st) = spawned (events st)
  | (Returns _, st) =>
      (forall i, (i < length nodes)%nat -> fails i = None) /\
      stop_flag st = false /\ m_workers st = nodes /\
      events st = map ev_spawn nodes /\
      stop_flag (destroy st) = true /\
      events (destroy st)
      = map ev_spawn nodes ++ [ev_stop_set; ev_notify_all] ++ map ev_join nodes /\
      joined (events (destroy st)) = spawned (events (destroy st))
  end.
Proof.
  unfold start_workers.
  destruct (spawn_result nodes fails no_threads) as (k & Hk & Hnone & Hst & Hout).
  cbn [m_workers events stop_flag no_threads length Nat.add app] in *.
  destruct (spawn nodes fails no_threads) as [[[]|e] st]; cbn [fst snd] in *;
    subst st.
  - subst k. rewrite firstn_all.
    unfold destroy, clean_up. cbn [m_workers events stop_flag].
    repeat split; try assumption.
    unfold joined, spawned. rewrite !omap_app.
    fold (joined (map ev_spawn nodes)) (spawned (map ev_spawn nodes))
         (joined (map ev_join nodes)) (spawned (map ev_join nodes)).
    rewrite joined_spawns, spawned_spawns, joined_joins, spawned_joins.
    cbn. rewrite app_nil_r. reflexivity.
  - destruct Hout as [Hlt He]. exists k.
    unfold clean_up. cbn [m_workers events stop_flag].
    repeat split; try assumption.
    unfold joined, spawned. rewrite !omap_app.
    fold (joined (map ev_spawn (take k nodes)))
         (spawned (map ev_spawn (take k nodes)))
         (joined (map ev_join (take k nodes)))
         (spawned (map ev_join (take k nodes))).
    rewrite joined_spawns, spawned_spawns, joined_joins, spawned_joins.
    cbn. rewrite app_nil_r. reflexivity.
Qed.

End FacadeFacts.
